(** * Idempotent ingestion pipeline of the Pub-Sub log aggregator

    A shallow embedding of [aggregator/app/models.py],
    [aggregator/app/database.py], the publishing side of
    [aggregator/app/consumer.py] and the handlers [publish], [list_events]
    and [health_check] of [aggregator/app/main.py], followed by the
    properties of the ingestion protocol.

    Conventions.
    - A Python [str] is the list of its code points ([list N]); [len] is
      [length]. A code point may be a lone surrogate, as in a [str] that
      [json.loads] builds from an escape.
    - A Python [float] is a binary64 value ([spec_float], precision 53,
      exponents up to 1024).
    - A [datetime] is an instant on the integer time line ([Z]), counted
      in microseconds.
    - Python exceptions are the [Raise] outcome of the monad [M]; a raise
      keeps the effects performed so far, as in Python.
    - The store (PostgreSQL behind asyncpg) and the transport (Redis) are
      state inside [World]; every SQL statement that is executed is
      entered in a journal, and the fault plan of the world decides which
      round trips to the store fail.
    - The driver encodes the arguments of a statement before sending them
      and decodes the columns of a row; what it does with JSON depends on
      the codec of the pool, which is part of [World]. *)

From Stdlib Require Import ZArith NArith List Lia Ascii String.
From Stdlib Require Import Floats.SpecFloat.
From stdpp Require Import base option list gmap sorting.

Local Open Scope Z_scope.

(** ** Python strings *)

Abbreviation str := (list N).

Definition str_of_string (s : string) : str :=
  (λ a, N_of_ascii a) <$> list_ascii_of_string s.

(** [str.isspace] for one code point: the characters [str.strip] removes
    when it is called without arguments. *)
Definition isspace (c : N) : bool :=
  ((9 <=? c) && (c <=? 13) || (28 <=? c) && (c <=? 32)
   || (c =? 133) || (c =? 160) || (c =? 5760)
   || (8192 <=? c) && (c <=? 8202)
   || (c =? 8232) || (c =? 8233) || (c =? 8239) || (c =? 8287)
   || (c =? 12288))%N.

Fixpoint lstrip (s : str) : str :=
  match s with
  | [] => []
  | c :: s' => if isspace c then lstrip s' else s
  end.

Definition rstrip (s : str) : str := reverse (lstrip (reverse s)).

Definition strip (s : str) : str := rstrip (lstrip s).

(** A surrogate code point, [U+D800] to [U+DFFF]: it has no UTF-8
    encoding. *)
Definition is_surrogate (c : N) : bool := ((55296 <=? c) && (c <=? 57343))%N.

(** Can the string be encoded as UTF-8? *)
Definition encodable (s : str) : bool := forallb (λ c, negb (is_surrogate c)) s.

(** ** Exceptions and outcomes *)

Inductive FieldName := f_topic | f_event_id | f_timestamp | f_source | f_payload
                     | f_limit | f_offset | f_events.

(** One entry of a pydantic / FastAPI validation error. *)
Inductive ErrorDetail :=
  | string_unicode (loc : FieldName)
  | dict_type (loc : FieldName)
  | string_too_short (loc : FieldName) (min_length : nat)
  | string_too_long (loc : FieldName) (max_length : nat)
  | value_error (loc : FieldName) (msg : string)
  | greater_than_equal (loc : FieldName) (ge : Z)
  | less_than_equal (loc : FieldName) (le : Z)
  | too_short (loc : FieldName) (min_length : nat)
  | too_long (loc : FieldName) (max_length : nat).

(** The SQL statements and transaction commands the code sends. *)
Inductive Stmt :=
  | BEGIN
  | COMMIT
  | ROLLBACK
  | INSERT_events (key : str * str)
  | UPDATE_stats (d_received d_unique d_duplicate : Z)
  | INSERT_audit_log (key : str * str) (is_duplicate : bool)
  | SELECT_events (topic : option str) (limit offset : Z)
  | SELECT_count (topic : option str).

Inductive Exn :=
  | ValidationError (errors : list ErrorDetail)
  | RuntimeError (msg : string)
  | PostgresError (failed : Stmt)
  | DataError (query : Stmt) (argument : nat)
  | PydanticSerializationError
  | ConnectionError
  | HTTPException (status_code : Z) (cause : Exn).

Inductive Result (A : Type) :=
  | Ok (a : A)
  | Raise (e : Exn).
Arguments Ok {A} a.
Arguments Raise {A} e.

(** ** models.py *)

Module Models.

#[local] Unset Elimination Schemes.
Inductive Json :=
  | JNull
  | JBool (b : bool)
  | JInt (n : Z)
  | JFloat (x : spec_float)
  | JString (s : str)
  | JArray (items : list Json)
  | JObject (members : list (str * Json)).
#[local] Set Elimination Schemes.

(** [Dict[str, Any]] as [json.loads] builds it: the values are [None],
    [bool], [int], [float] (the tokens [NaN] and [Infinity] and an
    overflowing literal give floats that are not finite), [str], [list]
    and [dict]. *)
Definition Payload := list (str * Json).

(** A finite [float]. *)
Definition isfinite (x : spec_float) : bool :=
  match x with
  | S754_zero _ | S754_finite _ _ _ => true
  | S754_infinity _ | S754_nan => false
  end.

(** Can the serializer write the value? Every string and every key is
    written as UTF-8. *)
Fixpoint dumpable (j : Json) : bool :=
  match j with
  | JNull | JBool _ | JInt _ | JFloat _ => true
  | JString s => encodable s
  | JArray items => forallb dumpable items
  | JObject members =>
      forallb (λ member, match member with
                         | (k, v) => encodable k && dumpable v
                         end) members
  end.

(** The value the serializer writes: a float that is not finite is
    written as [null]. *)
Fixpoint written (j : Json) : Json :=
  match j with
  | JFloat x => if isfinite x then JFloat x else JNull
  | JArray items => JArray (map written items)
  | JObject members =>
      JObject (map (λ member, match member with
                              | (k, v) => (k, written v)
                              end) members)
  | _ => j
  end.

(** The keyword arguments handed to [Event(...)]; the timestamp is
    taken as already parsed. *)
Record RawEvent := {
  raw_topic : str;
  raw_event_id : str;
  raw_timestamp : Z;
  raw_source : str;
  raw_payload : Payload
}.

(** A validated [Event]. *)
Record Event := {
  topic : str;
  event_id : str;
  timestamp : Z;
  source : str;
  payload : Payload
}.

(** [Field(..., min_length=, max_length=)] on a [str]: the constraints
    of the field's core schema, checked on the value as received. To
    count its characters the validator reads the string as UTF-8, which
    fails on a lone surrogate. *)
Definition Field (loc : FieldName) (min_length max_length : nat) (v : str)
  : ErrorDetail + str :=
  if negb (encodable v) then inl (string_unicode loc)
  else if (length v <? min_length)%nat then inl (string_too_short loc min_length)
  else if (max_length <? length v)%nat then inl (string_too_long loc max_length)
  else inr v.

(** [@field_validator('event_id')] *)
Definition validate_event_id (v : str) : ErrorDetail + str :=
  if bool_decide (strip v = []) then
    inl (value_error f_event_id "event_id cannot be empty or whitespace")
  else inr (strip v).

(** [@field_validator('topic')] *)
Definition validate_topic (v : str) : ErrorDetail + str :=
  if bool_decide (strip v = []) then
    inl (value_error f_topic "topic cannot be empty or whitespace")
  else inr (strip v).

(** A field validator declared with [field_validator] runs in mode
    [after]: on the value the field's own schema has accepted. *)
Definition after (inner : ErrorDetail + str) (validator : str → ErrorDetail + str)
  : ErrorDetail + str :=
  match inner with
  | inl err => inl err
  | inr v => validator v
  end.

Definition topic_field (v : str) : ErrorDetail + str :=
  after (Field f_topic 1 255 v) validate_topic.

Definition event_id_field (v : str) : ErrorDetail + str :=
  after (Field f_event_id 1 255 v) validate_event_id.

Definition source_field (v : str) : ErrorDetail + str :=
  Field f_source 1 255 v.

Definition errors_of {A} (r : ErrorDetail + A) : list ErrorDetail :=
  match r with inl err => [err] | inr _ => [] end.

(** Constructing an [Event] from keyword arguments: every field is validated and the errors of all
    fields are reported together. *)
Definition Event_init (raw : RawEvent) : Result Event :=
  match topic_field (raw_topic raw), event_id_field (raw_event_id raw),
        source_field (raw_source raw) with
  | inr t, inr i, inr s =>
      Ok {| topic := t; event_id := i; timestamp := raw_timestamp raw;
            source := s; payload := raw_payload raw |}
  | rt, ri, rs =>
      Raise (ValidationError (errors_of rt ++ errors_of ri ++ errors_of rs))
  end.

(** The JSON document [model_dump_json] writes for an event, member by
    member. *)
Record Document := {
  doc_topic : str;
  doc_event_id : str;
  doc_timestamp : Z;
  doc_source : str;
  doc_payload : Json
}.

(** [event.model_dump_json()]: it fails on a string or a key that has no
    UTF-8 encoding. The three constrained fields have passed
    [string_unicode]; the payload is [Dict[str, Any]] and has not. *)
Definition model_dump_json (event : Event) : Result Document :=
  if dumpable (JObject (payload event)) then
    Ok {| doc_topic := topic event; doc_event_id := event_id event;
          doc_timestamp := timestamp event; doc_source := source event;
          doc_payload := written (JObject (payload event)) |}
  else Raise PydanticSerializationError.

(** [BatchPublishRequest.events]:
    [Field(..., min_length=1, max_length=1000)] on the list. *)
Definition BatchPublishRequest_init (events : list Event) : Result (list Event) :=
  if (length events <? 1)%nat then Raise (ValidationError [too_short f_events 1])
  else if (1000 <? length events)%nat then Raise (ValidationError [too_long f_events 1000])
  else Ok events.

(** The two f-strings used for [PublishResponse.message]. *)
Inductive Message :=
  | Processed_events (processed duplicates : Z)
  | Published_to_queue (published : nat).

Record PublishResponse := {
  success : bool;
  message : Message;
  received : Z;
  duplicates : Z;
  processed : Z;
  event_ids : list str
}.

Record EventResponse := {
  er_topic : str;
  er_event_id : str;
  er_timestamp : Z;
  er_source : str;
  er_payload : Payload;
  er_processed_at : Z
}.

Record EventListResponse := {
  elr_events : list EventResponse;
  elr_total : Z;
  elr_topic : option str
}.

Record TopicStats := {
  ts_topic : str;
  event_count : Z
}.

(** A Python [float] as the expression that computes it. *)
Inductive PyFloat :=
  | float_0                               (* the literal [0.0] *)
  | truediv (a b : Z)                     (* [a / b] on two ints *)
  | fmul (x : PyFloat) (k : Z)            (* [x * k] *)
  | total_seconds (delta : Z)             (* [timedelta.total_seconds()] *)
  | round_to (x : PyFloat) (ndigits : Z). (* [round(x, ndigits)] *)

(** An [int] as the binary float of the same value, before any
    rounding. *)
Definition exact_int (a : Z) : spec_float :=
  match a with
  | Z0 => S754_zero false
  | Zpos p => S754_finite false p 0
  | Zneg p => S754_finite true p 0
  end.

(** A result that is not finite is an [OverflowError] or a
    [ZeroDivisionError] in the operations below. *)
Definition finite (x : spec_float) : option spec_float :=
  if isfinite x then Some x else None.

(** [a / b] on two ints: the quotient, rounded once to the nearest
    float. *)
Definition int_truediv (a b : Z) : option spec_float :=
  if b =? 0 then None else finite (SFdiv 53 1024 (exact_int a) (exact_int b)).

(** [float(k)] *)
Definition int_to_float (k : Z) : option spec_float :=
  finite (binary_normalize 53 1024 k 0 false).

(** [x * k] for a float and an int: the int is converted first. *)
Definition float_mul_int (x : spec_float) (k : Z) : option spec_float :=
  y ← int_to_float k; Some (SFmul 53 1024 x y).

(** The integer nearest to [n / d], for [d > 0]; a tie goes to the even
    one. *)
Definition half_even (n d : Z) : Z :=
  let q := n / d in
  match 2 * (n mod d) ?= d with
  | Lt => q
  | Gt => q + 1
  | Eq => if Z.even q then q else q + 1
  end.

(** [round(x, ndigits)] for [ndigits >= 0]: the exact value of [x] is
    rounded to [ndigits] decimals, a tie going to the even digit, and the
    decimal is read back as the nearest float. *)
Definition float_round (x : spec_float) (ndigits : Z) : option spec_float :=
  match x with
  | S754_finite s m e =>
      let p := 10 ^ ndigits in
      let n := Zpos m * p * (if 0 <=? e then 2 ^ e else 1) in
      let d := if 0 <=? e then 1 else 2 ^ (- e) in
      match half_even n d with
      | Zpos q => finite (SFdiv 53 1024 (S754_finite s q 0) (exact_int p))
      | _ => Some (S754_zero s)
      end
  | _ => Some x
  end.


Record HealthResponse := {
  h_status : string;
  h_database : string;
  h_redis : string;
  h_version : string;
  h_uptime_seconds : PyFloat
}.

End Models.

(** ** The store and the transport *)

Module Runtime.
Import Models.

(** Modelled from the spec: the schema (the relations [events],
    [audit_log] and [stats]) is installed by a script that is not part of
    the Python sources. Section 6 of the specification gives it: events
    unique on [(topic, event_id)] with [processed_at] defaulting to now,
    an append-only audit_log, and stats holding the row with the
    sentinel id 1. The surrogate [id] column of events is left out: the
    code only tests whether the row [RETURNING id] yields is [None]. *)
Record StoredEvent := {
  se_topic : str;
  se_event_id : str;
  se_timestamp : Z;
  se_source : str;
  se_payload : Payload;
  se_worker_id : str;
  se_processed_at : Z
}.

Record AuditRecord := {
  al_topic : str;
  al_event_id : str;
  al_is_duplicate : bool;
  al_worker_id : str;
  al_recorded_at : Z
}.

Record StatsRow := {
  st_received : Z;
  st_unique_processed : Z;
  st_duplicate_dropped : Z;
  st_started_at : Z;
  st_last_updated_at : Z
}.

(** [stats] is the row [WHERE id = 1], if the table has it. *)
Record DB := {
  events : gmap (str * str) StoredEvent;
  stats : option StatsRow;
  audit_log : list AuditRecord
}.

(** The Redis channel: how many clients are subscribed, and the
    messages published to it so far, oldest first. *)
Record Redis := {
  reachable : bool;
  subscribers : nat;
  channel : list Document
}.

(** Everything a handler can touch.
    - [pool]: whether [init_db] has run ([_pool is not None]);
    - [json_codec]: whether the connections of the pool carry a type
      codec that encodes a [dict] for a JSON parameter and decodes a JSON
      column to a [dict] ([Connection.set_type_codec]); without one the
      driver takes and gives JSON as [str] only;
    - [committed]: the durable state of the store;
    - [tx]: the working copy of the open transaction, if any;
    - [journal]: the statements executed so far, oldest first;
    - [faults]: the fault plan; each statement sent to the store takes
      the head, and fails when it is [true];
    - [redis_client]: [_redis_client]. *)
Record World := {
  pool : bool;
  json_codec : bool;
  committed : DB;
  tx : option DB;
  journal : list Stmt;
  faults : list bool;
  redis_client : option Redis
}.

Definition M (A : Type) : Type := World → Result A * World.

#[global] Instance M_ret : MRet M := λ A a w, (Ok a, w).

#[global] Instance M_bind : MBind M := λ A B f m w,
  match m w with
  | (Ok a, w') => f a w'
  | (Raise e, w') => (Raise e, w')
  end.

Definition raise {A} (e : Exn) : M A := λ w, (Raise e, w).

(** A computation that touches nothing of the world. *)
Definition result_of {A} (r : Result A) : M A := λ w, (r, w).

(** [try: body / except Exception as e: handler e] *)
Definition try_except {A} (body : M A) (handler : Exn → M A) : M A := λ w,
  match body w with
  | (Ok a, w') => (Ok a, w')
  | (Raise e, w') => handler e w'
  end.

(** The state a statement sees: the open transaction's, or else the
    committed one (autocommit). *)
Definition current (w : World) : DB := default (committed w) (tx w).

Definition put_db (d : DB) (w : World) : World :=
  match tx w with
  | Some _ =>
      {| pool := pool w; json_codec := json_codec w; committed := committed w; tx := Some d;
         journal := journal w; faults := faults w;
         redis_client := redis_client w |}
  | None =>
      {| pool := pool w; json_codec := json_codec w; committed := d; tx := None;
         journal := journal w; faults := faults w;
         redis_client := redis_client w |}
  end.

Definition log_stmt (s : Stmt) (w : World) : World :=
  {| pool := pool w; json_codec := json_codec w; committed := committed w; tx := tx w;
     journal := journal w ++ [s]; faults := tail (faults w);
     redis_client := redis_client w |}.

Definition set_tx (t : option DB) (w : World) : World :=
  {| pool := pool w; json_codec := json_codec w; committed := committed w; tx := t;
     journal := journal w; faults := faults w;
     redis_client := redis_client w |}.

Definition set_redis (r : Redis) (w : World) : World :=
  {| pool := pool w; json_codec := json_codec w; committed := committed w; tx := tx w;
     journal := journal w; faults := faults w;
     redis_client := Some r |}.

(** Does the fault plan fail the next statement? *)
Definition faulty (w : World) : bool :=
  match faults w with
  | b :: _ => b
  | [] => false
  end.

Definition consume_fault (w : World) : World :=
  {| pool := pool w; json_codec := json_codec w; committed := committed w; tx := tx w;
     journal := journal w; faults := tail (faults w);
     redis_client := redis_client w |}.

(** One statement sent over the connection. A statement that fails has
    no effect of its own and raises. *)
Definition statement {A} (s : Stmt) (run : DB → A * DB) : M A := λ w,
  if faulty w then (Raise (PostgresError s), consume_fault w)
  else let '(a, d) := run (current w) in (Ok a, log_stmt s (put_db d w)).

(** The arguments of a query that the driver may refuse to encode: a
    [dict] for a JSON parameter, which needs the codec, and an [int] for
    a [bigint] parameter, which must fit 64 bits. The text arguments are
    fields of validated events and constants of the code. *)
Inductive Arg :=
  | arg_text (s : str)
  | arg_timestamp (t : Z)
  | arg_bool (b : bool)
  | arg_dict (d : Payload)
  | arg_int8 (n : Z).

Definition encodes (codec : bool) (a : Arg) : bool :=
  match a with
  | arg_dict _ => codec
  | arg_int8 n => (- 2 ^ 63 <=? n) && (n <? 2 ^ 63)
  | _ => true
  end.

(** The position, from 1, of the first argument the driver refuses. *)
Fixpoint refused_from (position : nat) (codec : bool) (args : list Arg) : option nat :=
  match args with
  | [] => None
  | a :: rest =>
      if encodes codec a then refused_from (S position) codec rest
      else Some position
  end.

Definition refused (codec : bool) (args : list Arg) : option nat :=
  refused_from 1 codec args.

(** A statement with arguments: the driver has the server prepare the
    statement, encodes the arguments, and only then sends them. An
    argument it cannot encode raises [DataError] before the statement is
    executed. *)
Definition query {A} (s : Stmt) (args : list Arg) (run : DB → A * DB) : M A := λ w,
  if faulty w then (Raise (PostgresError s), consume_fault w)
  else
    match refused (json_codec w) args with
    | Some n => (Raise (DataError s n), consume_fault w)
    | None => statement s run w
    end.

(** How a JSON column of a fetched row arrives: as a [dict] with the
    codec, as [str] without. *)
Definition decodes_json : M bool := λ w, (Ok (json_codec w), w).

(** [tr.start()] *)
Definition tr_start : M unit := λ w,
  if faulty w then (Raise (PostgresError BEGIN), consume_fault w)
  else (Ok (), log_stmt BEGIN (set_tx (Some (committed w)) w)).

(** [tr.commit()] *)
Definition tr_commit : M unit := λ w,
  if faulty w then (Raise (PostgresError COMMIT), consume_fault w)
  else
    (Ok (),
     log_stmt COMMIT
       {| pool := pool w; json_codec := json_codec w; committed := current w; tx := None;
          journal := journal w; faults := faults w;
          redis_client := redis_client w |}).

(** [tr.rollback()] discards the working copy. *)
Definition tr_rollback : M unit := λ w,
  (Ok (),
   {| pool := pool w; json_codec := json_codec w; committed := committed w; tx := None;
      journal := journal w ++ [ROLLBACK]; faults := faults w;
      redis_client := redis_client w |}).

Definition set_pool (b : bool) (w : World) : World :=
  {| pool := b; json_codec := json_codec w; committed := committed w; tx := tx w;
     journal := journal w; faults := faults w;
     redis_client := redis_client w |}.

(** A query that only reads: the probe of the health check and the two
    queries of the statistics. It takes a fault like a statement, and a
    failed read surfaces as a connection error; the journal keeps the
    statements of the admission path and of the event list only. *)
Definition fetch {A} (run : DB → A) : M A := λ w,
  if faulty w then (Raise ConnectionError, consume_fault w)
  else (Ok (run (current w)), consume_fault w).

End Runtime.

(** ** database.py *)

Module Database.
Import Models Runtime.

(** [init_db]: [asyncpg.create_pool] is called without an [init]
    callback, so no type codec is registered on the connections of the
    pool. Opening the connections is a round trip. *)
Definition init_db : M unit := λ w,
  if faulty w then (Raise ConnectionError, consume_fault w)
  else
    (Ok (),
     {| pool := true; json_codec := false; committed := committed w;
        tx := tx w; journal := journal w; faults := tail (faults w);
        redis_client := redis_client w |}).

(** [get_pool] *)
Definition get_pool : M unit := λ w,
  if pool w then (Ok (), w)
  else (Raise (RuntimeError "Database pool not initialized. Call init_db() first."), w).

(** [get_connection]: a context manager around [pool.acquire()]. *)
Definition get_connection {A} (body : M A) : M A :=
  get_pool;; body.

(** [transaction]: start, run the body, commit; on any exception of the
    body or of the commit, roll back and raise it again. The start is
    outside the [try]. *)
Definition transaction {A} (body : M A) : M A :=
  tr_start;;
  try_except
    (a ← body; tr_commit;; mret a)
    (λ e, tr_rollback;; raise e).

Definition key (event : Event) : str * str := (topic event, event_id event).

Definition new_row (now : Z) (event : Event) (worker_id : str) : StoredEvent :=
  {| se_topic := topic event; se_event_id := event_id event;
     se_timestamp := timestamp event; se_source := source event;
     se_payload := payload event; se_worker_id := worker_id;
     se_processed_at := now |}.

(** The effect on the tables of [INSERT INTO events ... ON CONFLICT
    (topic, event_id) DO NOTHING RETURNING id]: the row it returns, if
    any, and the tables after it. *)
Definition INSERT_events_effect (now : Z) (event : Event) (worker_id : str) (d : DB)
  : option StoredEvent * DB :=
  match events d !! key event with
  | Some _ => (None, d)
  | None =>
      let row := new_row now event worker_id in
      (Some row,
       {| events := <[key event := row]> (events d);
          stats := stats d; audit_log := audit_log d |})
  end.

(** The six arguments of the insert; [$5] is [event.payload], a
    [dict]. *)
Definition INSERT_events_args (event : Event) (worker_id : str) : list Arg :=
  [arg_text (topic event); arg_text (event_id event);
   arg_timestamp (timestamp event); arg_text (source event);
   arg_dict (payload event); arg_text worker_id].

(** That statement through [conn.fetchrow]: the row, or [None]. *)
Definition fetchrow_INSERT_events (now : Z) (event : Event) (worker_id : str)
  : M (option StoredEvent) :=
  query (INSERT_events (key event)) (INSERT_events_args event worker_id)
    (INSERT_events_effect now event worker_id).

Definition bump (now d_received d_unique d_duplicate : Z) (r : StatsRow) : StatsRow :=
  {| st_received := st_received r + d_received;
     st_unique_processed := st_unique_processed r + d_unique;
     st_duplicate_dropped := st_duplicate_dropped r + d_duplicate;
     st_started_at := st_started_at r;
     st_last_updated_at := now |}.

(** The effect of [UPDATE stats SET received = received + $1,
    unique_processed = unique_processed + $2, duplicate_dropped =
    duplicate_dropped + $3, last_updated_at = NOW() WHERE id = 1]. *)
Definition UPDATE_stats_effect (now d_received d_unique d_duplicate : Z) (d : DB)
  : unit * DB :=
  ((), {| events := events d;
          stats := bump now d_received d_unique d_duplicate <$> stats d;
          audit_log := audit_log d |}).

Definition execute_UPDATE_stats (now d_received d_unique d_duplicate : Z) : M unit :=
  statement (UPDATE_stats d_received d_unique d_duplicate)
    (UPDATE_stats_effect now d_received d_unique d_duplicate).

Definition audit_row (now : Z) (event : Event) (is_duplicate : bool) (worker_id : str)
  : AuditRecord :=
  {| al_topic := topic event; al_event_id := event_id event;
     al_is_duplicate := is_duplicate; al_worker_id := worker_id;
     al_recorded_at := now |}.

(** The effect of [INSERT INTO audit_log (topic, event_id, is_duplicate,
    worker_id)]. *)
Definition INSERT_audit_log_effect (now : Z) (event : Event) (is_duplicate : bool)
    (worker_id : str) (d : DB) : unit * DB :=
  ((), {| events := events d; stats := stats d;
          audit_log := audit_log d ++ [audit_row now event is_duplicate worker_id] |}).

Definition execute_INSERT_audit_log (now : Z) (event : Event) (is_duplicate : bool)
    (worker_id : str) : M unit :=
  statement (INSERT_audit_log (key event) is_duplicate)
    (INSERT_audit_log_effect now event is_duplicate worker_id).

(** [result is None] *)
Definition is_None {A} (result : option A) : bool :=
  match result with None => true | Some _ => false end.

(** [process_event]; [now] is the instant [NOW()] denotes in its
    transaction. Returns [(success, is_duplicate)]. *)
Definition process_event (now : Z) (event : Event) (worker_id : str) : M (bool * bool) :=
  get_connection (
    transaction (
      result ← fetchrow_INSERT_events now event worker_id;
      let is_duplicate := is_None result in
      execute_UPDATE_stats now 1
        (if is_duplicate then 0 else 1)
        (if is_duplicate then 1 else 0);;
      execute_INSERT_audit_log now event is_duplicate worker_id;;
      mret (true, is_duplicate))).

(** The [for event in events] loop of [process_events_batch], with its
    two counters. *)
Fixpoint batch_loop (now : Z) (events : list Event) (worker_id : str)
    (processed duplicates : Z) : M (Z * Z) :=
  match events with
  | [] => mret (processed, duplicates)
  | event :: rest =>
      result ← fetchrow_INSERT_events now event worker_id;
      let is_duplicate := is_None result in
      let processed' := if is_duplicate then processed else processed + 1 in
      let duplicates' := if is_duplicate then duplicates + 1 else duplicates in
      execute_INSERT_audit_log now event is_duplicate worker_id;;
      batch_loop now rest worker_id processed' duplicates'
  end.

(** [process_events_batch]. Returns [(processed, duplicates)]. *)
Definition process_events_batch (now : Z) (events : list Event) (worker_id : str)
  : M (Z * Z) :=
  get_connection (
    transaction (
      '(processed, duplicates) ← batch_loop now events worker_id 0 0;
      execute_UPDATE_stats now (Z.of_nat (length events)) processed duplicates;;
      mret (processed, duplicates))).

(** Python truthiness of an [Optional[str]]: [None] and the empty
    string are both false. *)
Definition truthy (topic : option str) : bool :=
  match topic with
  | Some (_ :: _) => true
  | _ => false
  end.

(** [ORDER BY timestamp DESC] *)
Definition newest_first (a b : StoredEvent) : Prop :=
  se_timestamp b ≤ se_timestamp a.

#[global] Instance newest_first_dec a b : Decision (newest_first a b) :=
  Z_le_dec (se_timestamp b) (se_timestamp a).

Definition rows_of (topic : option str) (d : DB) : list StoredEvent :=
  let rows := (map_to_list (events d)).*2 in
  match topic with
  | Some t => if truthy topic then filter (λ r, se_topic r = t) rows else rows
  | None => rows
  end.

Definition to_EventResponse (row : StoredEvent) : EventResponse :=
  {| er_topic := se_topic row; er_event_id := se_event_id row;
     er_timestamp := se_timestamp row; er_source := se_source row;
     er_payload := se_payload row; er_processed_at := se_processed_at row |}.

(** [EventResponse(topic=row['topic'], ..., payload=row['payload'], ...)]:
    [payload] is declared [Dict[str, Any]]. With the codec the column
    arrives as a [dict]; without it the column arrives as the [str] of
    its JSON text, which the model refuses. *)
Definition EventResponse_init (codec : bool) (row : StoredEvent) : Result EventResponse :=
  if codec then Ok (to_EventResponse row)
  else Raise (ValidationError [dict_type f_payload]).

(** The list comprehension over the rows: the first row that fails ends
    it. *)
Fixpoint EventResponse_list (codec : bool) (rows : list StoredEvent)
  : Result (list EventResponse) :=
  match rows with
  | [] => Ok []
  | row :: rest =>
      match EventResponse_init codec row with
      | Raise e => Raise e
      | Ok r =>
          match EventResponse_list codec rest with
          | Raise e => Raise e
          | Ok rs => Ok (r :: rs)
          end
      end
  end.

(** The arguments of the select: the topic when it is given, then the
    limit and the offset, both [bigint]. *)
Definition SELECT_events_args (topic : option str) (limit offset : Z) : list Arg :=
  match topic with
  | Some t => if truthy topic then [arg_text t; arg_int8 limit; arg_int8 offset]
              else [arg_int8 limit; arg_int8 offset]
  | None => [arg_int8 limit; arg_int8 offset]
  end.

(** [SELECT ... FROM events [WHERE topic = $1] ORDER BY timestamp DESC
    LIMIT .. OFFSET ..]; the store refuses a negative LIMIT or OFFSET. *)
Definition fetch_SELECT_events (topic : option str) (limit offset : Z)
  : M (list StoredEvent) := λ w,
  let s := SELECT_events topic limit offset in
  if faulty w then (Raise (PostgresError s), consume_fault w)
  else
    match refused (json_codec w) (SELECT_events_args topic limit offset) with
    | Some n => (Raise (DataError s n), consume_fault w)
    | None =>
        if (limit <? 0) || (offset <? 0) then (Raise (PostgresError s), consume_fault w)
        else
          statement s (λ d,
            (take (Z.to_nat limit)
               (drop (Z.to_nat offset) (merge_sort newest_first (rows_of topic d))),
             d)) w
    end.

(** [get_events] *)
Definition get_events (topic : option str) (limit offset : Z) : M (list EventResponse) :=
  get_connection (
    rows ← fetch_SELECT_events topic limit offset;
    codec ← decodes_json;
    result_of (EventResponse_list codec rows)).

(** [get_event_count] *)
Definition get_event_count (topic : option str) : M Z :=
  get_connection (
    result ← statement (SELECT_count topic) (λ d,
               (Z.of_nat (length (rows_of topic d)), d));
    mret result).

(** [close_db] *)
Definition close_db : M unit := λ w,
  if pool w then (Ok (), set_pool false w) else (Ok (), w).

(** [GROUP BY topic] with [COUNT( * )]: the number of rows of each topic
    that has rows. *)
Definition group_by_topic (rows : list StoredEvent) : gmap str nat :=
  foldr (λ row counts,
           <[se_topic row := S (default 0%nat (counts !! se_topic row))]> counts)
        ∅ rows.

(** [ORDER BY event_count DESC] *)
Definition by_count_desc (a b : str * nat) : Prop := (b.2 ≤ a.2)%nat.

#[global] Instance by_count_desc_dec a b : Decision (by_count_desc a b) :=
  le_dec b.2 a.2.

(** [SELECT topic, COUNT( * ) as event_count FROM events GROUP BY topic
    ORDER BY event_count DESC] *)
Definition topic_breakdown (d : DB) : list (str * nat) :=
  merge_sort by_count_desc
    (map_to_list (group_by_topic (map_to_list (events d)).*2)).

(** The dictionary [get_stats] returns. *)
Record Stats := {
  s_received : Z;
  s_unique_processed : Z;
  s_duplicate_dropped : Z;
  s_duplicate_rate : PyFloat;
  s_topics : list TopicStats;
  s_topic_count : Z;
  s_started_at : Z;
  s_last_updated_at : Z
}.

(** [get_stats]; [now1] and [now2] are the two readings of the clock in
    the branch without a stats row. *)
Definition get_stats (now1 now2 : Z) : M Stats :=
  get_connection (
    stats_row ← fetch (λ d, stats d);
    topic_rows ← fetch topic_breakdown;
    match stats_row with
    | None =>
        mret {| s_received := 0; s_unique_processed := 0;
                s_duplicate_dropped := 0; s_duplicate_rate := float_0;
                s_topics := []; s_topic_count := 0;
                s_started_at := now1; s_last_updated_at := now2 |}
    | Some row =>
        let received := st_received row in
        let duplicate_rate :=
          if 0 <? received
          then fmul (truediv (st_duplicate_dropped row) received) 100
          else float_0 in
        let topics :=
          (λ r : str * nat, {| ts_topic := r.1; event_count := Z.of_nat r.2 |})
          <$> topic_rows in
        mret {| s_received := received;
                s_unique_processed := st_unique_processed row;
                s_duplicate_dropped := st_duplicate_dropped row;
                s_duplicate_rate := round_to duplicate_rate 2;
                s_topics := topics;
                s_topic_count := Z.of_nat (length topics);
                s_started_at := st_started_at row;
                s_last_updated_at := st_last_updated_at row |}
    end).

(** [check_db_health] *)
Definition check_db_health : M bool :=
  try_except
    (get_connection (fetch (λ _, 1));; mret true)
    (λ e, mret false).

End Database.

(** ** consumer.py: the publishing side *)

Module Consumer.
Import Models Runtime.

(** [get_redis] *)
Definition get_redis : M Redis := λ w,
  match redis_client w with
  | Some client => (Ok client, w)
  | None => (Raise (RuntimeError "Redis client not initialized. Call init_redis() first."), w)
  end.

(** The [for] loop of [publish_events_batch]: each event is serialized
    and its PUBLISH command is queued on the pipeline; the first event
    that cannot be serialized ends the loop with its error. *)
Fixpoint queue_commands (events : list Event) : Result (list Document) :=
  match events with
  | [] => Ok []
  | event :: rest =>
      match model_dump_json event with
      | Raise e => Raise e
      | Ok event_data =>
          match queue_commands rest with
          | Raise e => Raise e
          | Ok commands => Ok (event_data :: commands)
          end
      end
  end.

(** [pipe.execute()] for a pipeline of PUBLISH commands on the channel.
    With no command queued it returns the empty list without using a
    connection. Otherwise every message is delivered, and each command
    answers with the number of subscribers that received it. *)
Definition pipe_execute (client : Redis) (commands : list Document) : M (list nat) := λ w,
  match commands with
  | [] => (Ok [], w)
  | _ :: _ =>
      if reachable client then
        (Ok (replicate (length commands) (subscribers client)),
         set_redis {| reachable := reachable client; subscribers := subscribers client;
                      channel := channel client ++ commands |} w)
      else (Raise ConnectionError, w)
  end.

(** [publish_events_batch] *)
Definition publish_events_batch (events : list Event) : M nat :=
  client ← get_redis;
  commands ← result_of (queue_commands events);
  results ← pipe_execute client commands;
  let published := length (filter (λ r, 0 < r)%nat results) in
  mret published.

(** [client.ping()] *)
Definition ping (client : Redis) : M unit := λ w,
  if reachable client then (Ok (), w) else (Raise ConnectionError, w).

(** [check_redis_health] *)
Definition check_redis_health : M bool :=
  try_except
    (client ← get_redis; ping client;; mret true)
    (λ e, mret false).

(** [client.publish(channel, data)]: the message is delivered and the
    answer is the number of subscribers that received it. *)
Definition client_publish (client : Redis) (event_data : Document) : M nat := λ w,
  if reachable client then
    (Ok (subscribers client),
     set_redis {| reachable := reachable client; subscribers := subscribers client;
                  channel := channel client ++ [event_data] |} w)
  else (Raise ConnectionError, w).

(** [publish_event] *)
Definition publish_event (event : Event) : M bool :=
  try_except
    (client ← get_redis;
     event_data ← result_of (model_dump_json event);
     client_publish client event_data;;
     mret true)
    (λ e, mret false).

End Consumer.

(** ** main.py: the handlers *)

Module Main.
Import Models Runtime Database Consumer.

(** [Union[Event, BatchPublishRequest]], already validated. *)
Inductive PublishRequest :=
  | Single (event : Event)
  | Batch (events : list Event).

(** Normalize to list. *)
Definition events_of (request : PublishRequest) : list Event :=
  match request with
  | Single event => [event]
  | Batch events => events
  end.

(** [publish] *)
Definition publish (now : Z) (request : PublishRequest) (sync : bool)
  : M PublishResponse :=
  let events := events_of request in
  try_except
    (if sync then
       '(processed, duplicates) ←
         process_events_batch now events (str_of_string "api-sync");
       mret {| success := true;
               message := Processed_events processed duplicates;
               received := Z.of_nat (length events);
               processed := processed;
               duplicates := duplicates;
               event_ids := event_id <$> events |}
     else
       published ← publish_events_batch events;
       mret {| success := true;
               message := Published_to_queue published;
               received := Z.of_nat (length events);
               processed := 0;
               duplicates := 0;
               event_ids := event_id <$> events |})
    (λ e, raise (HTTPException 500 e)).

(** An integer query parameter declared with
    [Query(default, ge=.., le=..)]: absent, it takes the default; present,
    it is checked against the bounds. *)
Definition Query (loc : FieldName) (default_value : Z) (ge le : option Z)
    (given : option Z) : ErrorDetail + Z :=
  match given with
  | None => inr default_value
  | Some v =>
      match ge, le with
      | Some lo, _ => if v <? lo then inl (greater_than_equal loc lo)
                      else match le with
                           | Some hi => if hi <? v then inl (less_than_equal loc hi)
                                        else inr v
                           | None => inr v
                           end
      | None, Some hi => if hi <? v then inl (less_than_equal loc hi) else inr v
      | None, None => inr v
      end
  end.

(** The body of [list_events], for parameters that passed validation. *)
Definition list_events_body (topic : option str) (limit offset : Z)
  : M EventListResponse :=
  try_except
    (events ← get_events topic limit offset;
     total ← get_event_count topic;
     mret {| elr_events := events; elr_total := total; elr_topic := topic |})
    (λ e, raise (HTTPException 500 e)).

(** [list_events] as the route [GET /events]: the declared parameters
    [limit = Query(100, ge=1, le=1000)] and [offset = Query(0, ge=0)] are
    validated before the body runs; a violation is answered with 422. *)
Definition list_events (topic : option str) (limit offset : option Z)
  : M EventListResponse :=
  match Query f_limit 100 (Some 1) (Some 1000) limit,
        Query f_offset 0 (Some 0) None offset with
  | inr limit', inr offset' => list_events_body topic limit' offset'
  | rl, ro => raise (HTTPException 422 (ValidationError (errors_of rl ++ errors_of ro)))
  end.

(** [settings.app_version], at its default. *)
Definition app_version : string := "1.0.0".

(** How [health_check] ends: with the response, or by raising
    [HTTPException(status_code=503, detail=response.model_dump())]. *)
Inductive HealthOutcome :=
  | healthy_200 (response : HealthResponse)
  | unhealthy_503 (detail : HealthResponse).

(** [health_check]; [start_time] is [_start_time]. *)
Definition health_check (now start_time : Z) : M HealthOutcome :=
  db_healthy ← check_db_health;
  redis_healthy ← check_redis_health;
  let uptime := total_seconds (now - start_time) in
  let status : string :=
    if db_healthy && redis_healthy then "healthy"%string else "unhealthy"%string in
  let response :=
    {| h_status := status;
       h_database := if db_healthy then "connected"%string
                     else "disconnected"%string;
       h_redis := if redis_healthy then "connected"%string
                  else "disconnected"%string;
       h_version := app_version;
       h_uptime_seconds := round_to uptime 2 |} in
  if String.eqb status "unhealthy" then mret (unhealthy_503 response)
  else mret (healthy_200 response).

End Main.

(** * Properties *)

Import Models Runtime Database Consumer Main.

(** A world in which the pool is up and the store answers every
    statement. *)
Definition calm (w : World) : Prop := pool w = true ∧ faults w = [].

(** A calm world whose pool carries the JSON codec. *)
Definition nominal (w : World) : Prop := calm w ∧ json_codec w = true.

(** ** Statements inside a transaction

    A computation that only sends statements over a connection with an
    open transaction is described by its effect on the working copy: the
    value it returns, the copy after it, and the statements it sent. *)

Definition effect (A : Type) : Type := DB → A * DB * list Stmt.

(** The world after a computation with effect [(d, log)] went through. *)
Definition advance (d : DB) (log : list Stmt) (w : World) : World :=
  {| pool := pool w; json_codec := json_codec w; committed := committed w; tx := Some d;
     journal := journal w ++ log; faults := drop (length log) (faults w);
     redis_client := redis_client w |}.

(** Either the computation returned what the effect says, or it raised,
    which takes a fault of the store or a pool without the JSON codec,
    and the committed state is as it was. *)
Definition outcome {A} (res : Result A * World) (w : World) (eff : A * DB * list Stmt)
  : Prop :=
  match res with
  | (Ok a, w') => a = eff.1.1 ∧ w' = advance eff.1.2 eff.2 w
  | (Raise e, w') =>
      committed w' = committed w ∧ pool w' = pool w
      ∧ json_codec w' = json_codec w
      ∧ redis_client w' = redis_client w
      ∧ (faults w ≠ [] ∨ json_codec w = false)
  end.

Definition refines {A} (m : M A) (f : effect A) : Prop :=
  ∀ w d, tx w = Some d → outcome (m w) w (f d).

Definition ret_effect {A} (a : A) : effect A := λ d, (a, d, []).

Definition bind_effect {A B} (f : effect A) (g : A → effect B) : effect B := λ d,
  let '(a, d1, log1) := f d in
  let '(b, d2, log2) := g a d1 in
  (b, d2, log1 ++ log2).

Definition statement_effect {A} (s : Stmt) (run : DB → A * DB) : effect A := λ d,
  (run d, [s]).

(** The effect of the body of the transaction of [process_event]. *)
Definition admission_effect (now : Z) (event : Event) (worker_id : str)
  : effect (bool * bool) :=
  bind_effect
    (statement_effect (INSERT_events (key event))
       (INSERT_events_effect now event worker_id))
    (λ result,
       let is_duplicate := is_None result in
       bind_effect
         (statement_effect
            (UPDATE_stats 1 (if is_duplicate then 0 else 1)
               (if is_duplicate then 1 else 0))
            (UPDATE_stats_effect now 1 (if is_duplicate then 0 else 1)
               (if is_duplicate then 1 else 0)))
         (λ _,
            bind_effect
              (statement_effect (INSERT_audit_log (key event) is_duplicate)
                 (INSERT_audit_log_effect now event is_duplicate worker_id))
              (λ _, ret_effect (true, is_duplicate)))).

(** The tables after a first admission, and after a repeated one. *)
Definition first_admission (now : Z) (event : Event) (worker_id : str) (d : DB) : DB :=
  {| events := <[key event := new_row now event worker_id]> (events d);
     stats := bump now 1 1 0 <$> stats d;
     audit_log := audit_log d ++ [audit_row now event false worker_id] |}.

Definition repeat_admission (now : Z) (event : Event) (worker_id : str) (d : DB) : DB :=
  {| events := events d;
     stats := bump now 1 0 1 <$> stats d;
     audit_log := audit_log d ++ [audit_row now event true worker_id] |}.

(** The world after a transaction with effect [(d, log)] committed. *)
Definition commit_world (d : DB) (log : list Stmt) (w : World) : World :=
  {| pool := pool w; json_codec := json_codec w; committed := d; tx := None;
     journal := journal w ++ BEGIN :: log ++ [COMMIT];
     faults := drop (S (S (length log))) (faults w);
     redis_client := redis_client w |}.

(** The effect of the loop of [process_events_batch], and of the whole
    body of its transaction. *)
Fixpoint batch_effect (now : Z) (events : list Event) (worker_id : str)
    (processed duplicates : Z) : effect (Z * Z) :=
  match events with
  | [] => ret_effect (processed, duplicates)
  | event :: rest =>
      bind_effect
        (statement_effect (INSERT_events (key event))
           (INSERT_events_effect now event worker_id))
        (λ result,
           let is_duplicate := is_None result in
           bind_effect
             (statement_effect (INSERT_audit_log (key event) is_duplicate)
                (INSERT_audit_log_effect now event is_duplicate worker_id))
             (λ _,
                batch_effect now rest worker_id
                  (if is_duplicate then processed else processed + 1)
                  (if is_duplicate then duplicates + 1 else duplicates)))
  end.

Definition batch_tx_effect (now : Z) (events : list Event) (worker_id : str)
  : effect (Z * Z) :=
  bind_effect (batch_effect now events worker_id 0 0)
    (λ '(processed, duplicates),
       bind_effect
         (statement_effect
            (UPDATE_stats (Z.of_nat (length events)) processed duplicates)
            (UPDATE_stats_effect now (Z.of_nat (length events)) processed duplicates))
         (λ _, ret_effect (processed, duplicates))).

(** For each event of a batch, in order: was its key already stored,
    either before the batch ([stored]) or by an earlier event of it? *)
Fixpoint duplicate_flags (stored : gset (str * str)) (events : list Event) : list bool :=
  match events with
  | [] => []
  | event :: rest =>
      bool_decide (key event ∈ stored)
      :: duplicate_flags ({[key event]} ∪ stored) rest
  end.

Definition count_of (b : bool) (flags : list bool) : Z :=
  Z.of_nat (length (filter (λ f, f = b) flags)).

(** The events table after a batch: the first event of each new key is
    stored. *)
Definition store_all (now : Z) (worker_id : str) (events : list Event)
    (table : gmap (str * str) StoredEvent) : gmap (str * str) StoredEvent :=
  foldl (λ m event, match m !! key event with
                    | Some _ => m
                    | None => <[key event := new_row now event worker_id]> m
                    end) table events.

(** The statements of the loop of a batch. *)
Definition batch_journal (events : list Event) (flags : list bool) : list Stmt :=
  concat (zip_with (λ event f, [INSERT_events (key event);
                                INSERT_audit_log (key event) f]) events flags).

Definition batch_audit (now : Z) (worker_id : str) (events : list Event)
    (flags : list bool) : list AuditRecord :=
  zip_with (λ event f, audit_row now event f worker_id) events flags.

(** Admitting the same event once per attempt; an attempt is the instant
    and the worker of one call of [process_event]. *)
Fixpoint process_each (event : Event) (attempts : list (Z * str))
  : M (list (bool * bool)) :=
  match attempts with
  | [] => mret []
  | (now, worker_id) :: rest =>
      r ← process_event now event worker_id;
      rs ← process_each event rest;
      mret (r :: rs)
  end.

(** The dedup key of an audit row. *)
Definition audit_key (r : AuditRecord) : str * str := (al_topic r, al_event_id r).

(** ** Sample data

    The freshly installed store, the service on two pools, and the events
    of the end-to-end scenarios. *)

Definition bootstrap : DB :=
  {| events := ∅;
     stats := Some {| st_received := 0; st_unique_processed := 0;
                      st_duplicate_dropped := 0; st_started_at := 0;
                      st_last_updated_at := 0 |};
     audit_log := [] |}.

(** The service on a pool whose connections carry the JSON codec: the
    deployment that the docstrings and the test suite take for granted. *)
Definition service : World :=
  {| pool := true; json_codec := true; committed := bootstrap; tx := None;
     journal := []; faults := [];
     redis_client := Some {| reachable := true; subscribers := 4; channel := [] |} |}.

(** The installed store before the service starts, and the service as
    the code starts it: on the pool that [init_db] builds. *)
Definition installed : World :=
  {| pool := false; json_codec := false; committed := bootstrap; tx := None;
     journal := []; faults := [];
     redis_client := Some {| reachable := true; subscribers := 4; channel := [] |} |}.

Definition deployed : World := (init_db installed).2.

Definition sample (topic_name event_name : string) (at_time : Z) : Event :=
  {| topic := str_of_string topic_name; event_id := str_of_string event_name;
     timestamp := at_time; source := str_of_string "s"; payload := [] |}.

Definition worker_name (i : string) : str := str_of_string ("worker-" ++ i).

(** ** The counters *)

(** I1 on the tables: the row of stats, when there is one, has
    [received = unique_processed + duplicate_dropped]. *)
Definition stats_invariant (d : DB) : Prop :=
  ∀ st, stats d = Some st →
        st_received st = st_unique_processed st + st_duplicate_dropped st.

(** [received] in [d'] is at least what it was in [d], and the row has
    neither appeared nor disappeared. *)
Definition received_le (d d' : DB) : Prop :=
  match stats d, stats d' with
  | Some st, Some st' => st_received st ≤ st_received st'
  | None, None => True
  | _, _ => False
  end.

(** ** The steps of an admission *)

(** Scenario 2: five unique keys, then repeats of three of them. *)
Definition batch_of_8 : list Event :=
  [sample "t" "e1" 1; sample "t" "e2" 2; sample "t" "e3" 3; sample "t" "e4" 4;
   sample "t" "e5" 5; sample "t" "e1" 6; sample "t" "e2" 7; sample "t" "e3" 8].

(** The statements one call of [process_event] sends, in order, on the
    committed tables [d]. *)
Definition admission_steps (now : Z) (event : Event) (worker_id : str) (d : DB)
  : list Stmt :=
  let is_duplicate := is_None (INSERT_events_effect now event worker_id d).1 in
  [BEGIN;
   INSERT_events (key event);
   UPDATE_stats 1 (if is_duplicate then 0 else 1) (if is_duplicate then 1 else 0);
   INSERT_audit_log (key event) is_duplicate;
   COMMIT].

(** A world of the running service in which the store fails the
    statement at position [k] and answers the ones before it. *)
Definition failing_at (k : nat) : World :=
  {| pool := true; json_codec := true; committed := bootstrap; tx := None;
     journal := []; faults := replicate k false ++ [true];
     redis_client := redis_client service |}.

(** ** Validation *)

Definition rejected {A} (r : ErrorDetail + A) : Prop := ∃ err, r = inl err.

(** The specification's admission rule for [topic] and [event_id], in its
    own words: reject exactly when the trimmed value is empty or longer
    than 255 characters. *)
Definition rejects_on_trimmed_value (field : str → ErrorDetail + str) : Prop :=
  ∀ v, rejected (field v) ↔ strip v = [] ∨ (255 < length (strip v))%nat.

Definition space : N := 32%N.

(** One letter followed by 255 spaces: 256 characters as received, one
    character once trimmed. *)
Definition padded : str := str_of_string "a" ++ replicate 255 space.

(** ** Queries *)

(** The specification's word for the limit of an event-list query:
    clamped to [[1, 1000]]. *)
Definition clamp (limit : Z) : Z := Z.max 1 (Z.min 1000 limit).

(** The limit is clamped: a query answers as the query with the clamped
    limit does. *)
Definition limit_is_clamped : Prop :=
  ∀ topic limit offset w,
    list_events topic (Some limit) offset w
    = list_events topic (Some (clamp limit)) offset w.

(** Does a stored row belong to an event-list query for [topic]? An
    absent or empty topic selects every row. *)
Definition selected (topic : option str) (row : StoredEvent) : Prop :=
  match topic with
  | Some (c :: t) => se_topic row = c :: t
  | _ => True
  end.

(** Newest first, on the rows of a response. *)
Definition newest_first_response (a b : EventResponse) : Prop :=
  er_timestamp b ≤ er_timestamp a.

(** The world after the two queries of an event-list request. *)
Definition listed (topic : option str) (limit offset : Z) (w : World) : World :=
  {| pool := pool w; json_codec := json_codec w; committed := committed w; tx := tx w;
     journal := journal w ++ [SELECT_events topic limit offset; SELECT_count topic];
     faults := faults w; redis_client := redis_client w |}.

(** The service with the codec after the batch of scenario 2 was
    admitted; and the service as the code starts it on a store that
    already holds those tables. *)
Definition stocked : World :=
  (process_events_batch 10 batch_of_8 (str_of_string "api-sync") service).2.

Definition deployed_on_stock : World :=
  {| pool := true; json_codec := false; committed := committed stocked;
     tx := None; journal := []; faults := [];
     redis_client := redis_client deployed |}.

(** A row that was inserted for an event, at [now] and by
    [worker_id]. *)
Definition inserted_for (now : Z) (worker_id : str) (event : Event)
    (row : StoredEvent) : Prop :=
  se_topic row = topic event ∧ se_event_id row = event_id event
  ∧ se_timestamp row = timestamp event ∧ se_source row = source event
  ∧ se_payload row = payload event ∧ se_worker_id row = worker_id
  ∧ se_processed_at row = now.

(** An entry of a response carries the columns of its row. *)
Definition entry_of (row : StoredEvent) (entry : EventResponse) : Prop :=
  er_topic entry = se_topic row ∧ er_event_id entry = se_event_id row
  ∧ er_timestamp entry = se_timestamp row ∧ er_source entry = se_source row
  ∧ er_payload entry = se_payload row
  ∧ er_processed_at entry = se_processed_at row.

(** ** Histories of admissions *)

(** The number of audit rows that record the first admission of [k]. *)
Definition first_rows (k : str * str) (log : list AuditRecord) : nat :=
  length (filter (λ r, audit_key r = k ∧ al_is_duplicate r = false) log).

(** The audit log agrees with the events table: every stored key has
    exactly one audit row with [is_duplicate = false], a key that is not
    stored has none, and every audit row is about a stored key. *)
Definition tables_coherent (table : gmap (str * str) StoredEvent)
    (log : list AuditRecord) : Prop :=
  (∀ k, first_rows k log = if table !! k is Some _ then 1%nat else 0%nat)
  ∧ Forall (λ r, is_Some (table !! audit_key r)) log.

(** The counters agree with the tables: [received] counts the audit
    rows, [unique_processed] the stored events, [duplicate_dropped] the
    audit rows with [is_duplicate = true]. *)
Definition counters_coherent (d : DB) : Prop :=
  ∀ st, stats d = Some st →
    st_received st = Z.of_nat (length (audit_log d))
    ∧ st_unique_processed st = Z.of_nat (size (events d))
    ∧ st_duplicate_dropped st
      = Z.of_nat (length (filter (λ r, al_is_duplicate r = true) (audit_log d))).

(** One call of the write path. *)
Inductive Call :=
  | single (now : Z) (event : Event) (worker_id : str)
  | many (now : Z) (events : list Event) (worker_id : str).

Definition with_faults (plan : list bool) (w : World) : World :=
  {| pool := pool w; json_codec := json_codec w; committed := committed w; tx := tx w;
     journal := journal w; faults := plan; redis_client := redis_client w |}.

(** The world after a call during which the store follows the fault
    plan [plan]. *)
Definition after_call (w : World) (c : Call * list bool) : World :=
  match c.1 with
  | single now event worker_id =>
      (process_event now event worker_id (with_faults c.2 w)).2
  | many now events worker_id =>
      (process_events_batch now events worker_id (with_faults c.2 w)).2
  end.

(** The world after a history of calls, oldest first. *)
Definition history (calls : list (Call * list bool)) (w : World) : World :=
  foldl after_call w calls.

(** The tables after one admission. *)
Definition admission_tables (now : Z) (worker_id : str) (d : DB) (event : Event) : DB :=
  match events d !! key event with
  | Some _ => repeat_admission now event worker_id d
  | None => first_admission now event worker_id d
  end.

(** The tables after a batch went through. *)
Definition batch_tables (now : Z) (worker_id : str) (batch : list Event) (d : DB) : DB :=
  {| events := store_all now worker_id batch (events d);
     stats := bump now (Z.of_nat (length batch))
                (count_of false (duplicate_flags (dom (events d)) batch))
                (count_of true (duplicate_flags (dom (events d)) batch))
              <$> stats d;
     audit_log := audit_log d
       ++ batch_audit now worker_id batch (duplicate_flags (dom (events d)) batch) |}.

(** A history on the running service: an admission, a batch during which
    the store fails the third statement, the same batch again, and a
    repeated admission. *)
Definition sample_history : list (Call * list bool) :=
  [(single 10 (sample "t" "e1" 1) (worker_name "0"), []);
   (many 11 batch_of_8 (str_of_string "api-sync"), [false; false; true]);
   (many 12 batch_of_8 (str_of_string "api-sync"), []);
   (single 13 (sample "t" "e1" 9) (worker_name "1"), [])].

(** ** Validation, again *)

(** The keyword arguments that repeat the fields of an event. *)
Definition fields_of (event : Event) : RawEvent :=
  {| raw_topic := topic event; raw_event_id := event_id event;
     raw_timestamp := timestamp event; raw_source := source event;
     raw_payload := payload event |}.

(** ** Health *)

(** Does the store answer the probe? The pool must be up and the fault
    plan must not fail the next statement. *)
Definition store_answers (w : World) : bool := pool w && negb (faulty w).

(** Does the transport answer the ping? *)
Definition transport_answers (w : World) : bool :=
  match redis_client w with
  | Some client => reachable client
  | None => false
  end.

(** Every row is stored under the key made of its own topic and event
    id. *)
Definition well_keyed (table : gmap (str * str) StoredEvent) : Prop :=
  ∀ k row, table !! k = Some row → (se_topic row, se_event_id row) = k.

(** ** The duplicate rate *)

(** The specification's words for the duplicate rate of a snapshot:
    [duplicate_dropped / received * 100] rounded to 2 decimal places when
    [received > 0], else [0.0]. *)
Definition duplicate_rate_of (received duplicate_dropped : Z) : option spec_float :=
  if 0 <? received then
    ratio ← int_truediv duplicate_dropped received;
    percent ← float_mul_int ratio 100;
    float_round percent 2
  else Some (S754_zero false).

(** ** Submissions *)

(** The events of a submission, in the specification's words: the one
    event, or the events of the batch. *)
Definition submitted (request : PublishRequest) : list Event :=
  match request with
  | Single event => [event]
  | Batch events => events
  end.

(** A document carries the topic, the id, the instant and the source of
    its event. *)
Definition document_of (event : Event) (document : Document) : Prop :=
  doc_topic document = topic event ∧ doc_event_id document = event_id event
  ∧ doc_timestamp document = timestamp event
  ∧ doc_source document = source event.

(** An event that [Event] has accepted. *)
Definition valid (event : Event) : Prop := ∃ raw, Event_init raw = Ok event.

(** The specification's word for the asynchronous path: with the
    transport reachable, every submission of [N] valid events is answered
    with success, [received = N], [processed = 0] and [duplicates = 0]. *)
Definition async_submission_reports_zero : Prop :=
  ∀ now request w client,
    redis_client w = Some client → reachable client = true →
    Forall valid (submitted request) →
    ∃ response w',
      publish now request false w = (Ok response, w')
      ∧ success response = true
      ∧ received response = Z.of_nat (length (submitted request))
      ∧ processed response = 0
      ∧ duplicates response = 0.

(** The text [{"k": "\ud800"}] as [json.loads] reads it: the value is a
    lone surrogate. *)
Definition lone_surrogate_payload : Payload :=
  [(str_of_string "k", JString [55296%N])].

Definition lone_surrogate_event : Event :=
  {| topic := str_of_string "t"; event_id := str_of_string "e1";
     timestamp := 0; source := str_of_string "s";
     payload := lone_surrogate_payload |}.

Lemma tail_drop {A} (n : nat) (l : list A) : tail (drop n l) = drop (S n) l.
Proof.
  revert l. induction n as [|n IH]; intros [|x l]; cbn; auto.
Qed.

Lemma refines_ret {A} (a : A) : refines (mret a) (ret_effect a).
Proof.
  intros w d Ht. destruct w as [p jc c t j f r]; simpl in *; subst.
  unfold mret, M_ret, advance; cbn. by rewrite app_nil_r, drop_0.
Qed.

Lemma refines_statement {A} (s : Stmt) (run : DB → A * DB) :
  refines (statement s run) (statement_effect s run).
Proof.
  intros w d Ht. destruct w as [p jc c t j f r]; simpl in *; subst.
  unfold statement, statement_effect, faulty, current, put_db, log_stmt, advance; cbn.
  destruct f as [|[] f]; cbn; destruct (run d) as [a d']; cbn; auto.
  repeat split; auto.
Qed.

Lemma refines_query {A} (s : Stmt) (args : list Arg) (run : DB → A * DB) :
  refused true args = None →
  refines (query s args run) (statement_effect s run).
Proof.
  intros Hargs w d Ht. unfold query.
  destruct (faulty w) eqn:Hf.
  { cbn. repeat split; try done. left. unfold faulty in Hf. by destruct (faults w). }
  destruct (refused (json_codec w) args) as [n|] eqn:Hr.
  - cbn. repeat split; try done.
    destruct (json_codec w); [congruence | by right].
  - by apply refines_statement.
Qed.

Lemma refines_fetchrow_INSERT_events now event worker_id :
  refines (fetchrow_INSERT_events now event worker_id)
    (statement_effect (INSERT_events (key event))
       (INSERT_events_effect now event worker_id)).
Proof. by apply refines_query. Qed.

Lemma refines_bind {A B} (m : M A) (k : A → M B) (f : effect A) (g : A → effect B) :
  refines m f → (∀ a, refines (k a) (g a)) → refines (m ≫= k) (bind_effect f g).
Proof.
  intros Hm Hk w d Ht. specialize (Hm w d Ht).
  unfold mbind, M_bind, bind_effect.
  destruct (m w) as [[a|e] w1], (f d) as [[a0 d1] log1]; cbn in *.
  - destruct Hm as [-> ->].
    specialize (Hk a0 (advance d1 log1 w) d1 eq_refl).
    destruct (k a0 (advance d1 log1 w)) as [[b|e] w2], (g a0 d1) as [[b0 d2] log2];
      cbn in *.
    + destruct Hk as [-> ->]. split; [done|].
      unfold advance; cbn. by rewrite app_assoc, length_app, drop_drop.
    + destruct Hk as (-> & -> & -> & -> & Hf). repeat split; try done.
      destruct Hf as [Hf|Hf]; [left | by right].
      intros Hnil. apply Hf. cbn. by rewrite Hnil, drop_nil.
  - done.
Qed.

Lemma refines_admission now event worker_id :
  refines
    (result ← fetchrow_INSERT_events now event worker_id;
     let is_duplicate := is_None result in
     execute_UPDATE_stats now 1
       (if is_duplicate then 0 else 1) (if is_duplicate then 1 else 0);;
     execute_INSERT_audit_log now event is_duplicate worker_id;;
     mret (true, is_duplicate))
    (admission_effect now event worker_id).
Proof.
  unfold admission_effect.
  apply refines_bind; [apply refines_fetchrow_INSERT_events|]. intros result.
  apply refines_bind; [apply refines_statement|]. intros _.
  apply refines_bind; [apply refines_statement|]. intros _.
  apply refines_ret.
Qed.

Lemma admission_effect_new now event worker_id d :
  events d !! key event = None →
  admission_effect now event worker_id d
  = ((true, false), first_admission now event worker_id d,
     [INSERT_events (key event); UPDATE_stats 1 1 0;
      INSERT_audit_log (key event) false]).
Proof.
  intros Hk. unfold admission_effect, bind_effect, statement_effect, ret_effect,
    INSERT_events_effect. by rewrite Hk.
Qed.

Lemma admission_effect_dup now event worker_id d row :
  events d !! key event = Some row →
  admission_effect now event worker_id d
  = ((true, true), repeat_admission now event worker_id d,
     [INSERT_events (key event); UPDATE_stats 1 0 1;
      INSERT_audit_log (key event) true]).
Proof.
  intros Hk. unfold admission_effect, bind_effect, statement_effect, ret_effect,
    INSERT_events_effect. rewrite Hk. by destruct d.
Qed.

(** The [transaction] context manager is atomic: either the body's
    effect is committed whole, or the committed state is untouched. *)
Lemma transaction_outcome {A} (body : M A) (f : effect A) (w : World) :
  refines body f →
  match transaction body w with
  | (Ok a, w') =>
      a = (f (committed w)).1.1
      ∧ w' = commit_world (f (committed w)).1.2 (f (committed w)).2 w
  | (Raise e, w') =>
      committed w' = committed w ∧ pool w' = pool w
      ∧ json_codec w' = json_codec w
      ∧ redis_client w' = redis_client w
      ∧ (faults w ≠ [] ∨ json_codec w = false)
  end.
Proof.
  intros Hb. unfold transaction, mbind at 1, M_bind at 1.
  unfold tr_start at 1.
  destruct (faulty w) eqn:Hf0.
  { cbn. repeat split; try done. left. unfold faulty in Hf0. by destruct (faults w). }
  set (w0 := log_stmt BEGIN (set_tx (Some (committed w)) w)).
  specialize (Hb w0 (committed w) eq_refl).
  unfold try_except, mbind, M_bind.
  destruct (body w0) as [[a|e] w1], (f (committed w)) as [[a0 d1] log]; cbn in *.
  - destruct Hb as [-> ->]. unfold tr_commit.
    destruct (faulty (advance d1 log w0)) eqn:Hf1; cbn.
    + unfold faulty in Hf1; cbn in Hf1. repeat split; try done. left.
      intros Hnil. rewrite Hnil in Hf1. cbn in Hf1. by rewrite drop_nil in Hf1.
    + split; [done|]. unfold commit_world, log_stmt, current; cbn.
      f_equal.
      * by rewrite <- !app_assoc.
      * rewrite tail_drop. by destruct (faults w).
  - destruct Hb as (-> & -> & -> & -> & Hf). repeat split; try done.
    destruct Hf as [Hf|Hf]; [left | by right].
    intros Hnil. apply Hf. cbn. by rewrite Hnil.
Qed.

Lemma get_connection_run {A} (body : M A) (w : World) :
  get_connection body w
  = if pool w then body w
    else (Raise (RuntimeError "Database pool not initialized. Call init_db() first."), w).
Proof.
  unfold get_connection, get_pool, mbind, M_bind. by destruct (pool w).
Qed.

(** What [process_event] does in every world: it returns and has
    committed the effect of the admission, or it raises and has committed
    nothing. *)
Lemma process_event_outcome now event worker_id w :
  match process_event now event worker_id w with
  | (Ok r, w') =>
      pool w = true
      ∧ r = (admission_effect now event worker_id (committed w)).1.1
      ∧ w' = commit_world (admission_effect now event worker_id (committed w)).1.2
               (admission_effect now event worker_id (committed w)).2 w
  | (Raise e, w') =>
      committed w' = committed w ∧ redis_client w' = redis_client w
      ∧ pool w' = pool w ∧ json_codec w' = json_codec w
      ∧ (pool w = false ∨ faults w ≠ [] ∨ json_codec w = false)
  end.
Proof.
  unfold process_event. rewrite get_connection_run.
  destruct (pool w) eqn:Hp; [|by auto 10].
  pose proof (transaction_outcome _ _ w (refines_admission now event worker_id)) as H.
  destruct (transaction _ w) as [[r|e] w']; [tauto|].
  destruct H as (? & ? & ? & ? & ?). repeat split; try done; [congruence | tauto].
Qed.

Lemma count_of_cons b f flags :
  count_of b (f :: flags) = (if bool_decide (f = b) then 1 else 0) + count_of b flags.
Proof.
  unfold count_of. rewrite filter_cons.
  case_bool_decide; case_decide; try done; cbn [length]; lia.
Qed.

Lemma count_of_total flags :
  count_of false flags + count_of true flags = Z.of_nat (length flags).
Proof.
  induction flags as [|[] flags IH]; [done|..];
    rewrite !count_of_cons; cbn [length]; repeat case_bool_decide; try done; lia.
Qed.

Lemma length_duplicate_flags stored events :
  length (duplicate_flags stored events) = length events.
Proof. revert stored. induction events; intros; cbn; auto. Qed.

Lemma batch_effect_spec now worker_id batch : ∀ processed duplicates d,
  batch_effect now batch worker_id processed duplicates d
  = ((processed + count_of false (duplicate_flags (dom (events d)) batch),
      duplicates + count_of true (duplicate_flags (dom (events d)) batch)),
     {| events := store_all now worker_id batch (events d);
        stats := stats d;
        audit_log := audit_log d
          ++ batch_audit now worker_id batch (duplicate_flags (dom (events d)) batch) |},
     batch_journal batch (duplicate_flags (dom (events d)) batch)).
Proof.
  induction batch as [|event rest IH]; intros processed duplicates d.
  - cbn. unfold ret_effect, count_of; cbn. rewrite app_nil_r, !Z.add_0_r.
    by destruct d.
  - cbn [batch_effect duplicate_flags].
    unfold bind_effect at 1, statement_effect at 1, INSERT_events_effect.
    destruct (events d !! key event) as [row|] eqn:Hk.
    + unfold bind_effect at 1, statement_effect at 1, INSERT_audit_log_effect.
      rewrite IH. cbn.
      assert ({[key event]} ∪ dom (events d) = dom (events d)) as ->.
      { apply subseteq_union_1_L, singleton_subseteq_l. by eapply elem_of_dom_2. }
      rewrite bool_decide_eq_true_2 by (by eapply elem_of_dom_2).
      rewrite !count_of_cons. cbn. rewrite Hk, <- app_assoc.
      repeat case_bool_decide; try done.
      repeat match goal with |- (_, _) = (_, _) => f_equal end; try done; lia.
    + unfold bind_effect at 1, statement_effect at 1, INSERT_audit_log_effect.
      rewrite IH. cbn.
      rewrite dom_insert_L.
      rewrite bool_decide_eq_false_2 by (by apply not_elem_of_dom).
      rewrite !count_of_cons. cbn. rewrite Hk, <- app_assoc.
      repeat case_bool_decide; try done.
      repeat match goal with |- (_, _) = (_, _) => f_equal end; try done; lia.
Qed.

Lemma refines_batch_loop now worker_id batch : ∀ processed duplicates,
  refines (batch_loop now batch worker_id processed duplicates)
          (batch_effect now batch worker_id processed duplicates).
Proof.
  induction batch as [|event rest IH]; intros processed duplicates; cbn.
  - apply refines_ret.
  - apply refines_bind; [apply refines_fetchrow_INSERT_events|]. intros result.
    apply refines_bind; [apply refines_statement|]. intros _.
    apply IH.
Qed.

Lemma refines_batch_tx now worker_id batch :
  refines
    ('(processed, duplicates) ← batch_loop now batch worker_id 0 0;
     execute_UPDATE_stats now (Z.of_nat (length batch)) processed duplicates;;
     mret (processed, duplicates))
    (batch_tx_effect now batch worker_id).
Proof.
  unfold batch_tx_effect.
  apply refines_bind; [apply refines_batch_loop|]. intros [processed duplicates].
  apply refines_bind; [apply refines_statement|]. intros _.
  apply refines_ret.
Qed.

Lemma batch_tx_effect_spec now worker_id batch d :
  batch_tx_effect now batch worker_id d
  = ((count_of false (duplicate_flags (dom (events d)) batch),
      count_of true (duplicate_flags (dom (events d)) batch)),
     {| events := store_all now worker_id batch (events d);
        stats := bump now (Z.of_nat (length batch))
                   (count_of false (duplicate_flags (dom (events d)) batch))
                   (count_of true (duplicate_flags (dom (events d)) batch))
                 <$> stats d;
        audit_log := audit_log d
          ++ batch_audit now worker_id batch (duplicate_flags (dom (events d)) batch) |},
     batch_journal batch (duplicate_flags (dom (events d)) batch)
     ++ [UPDATE_stats (Z.of_nat (length batch))
           (count_of false (duplicate_flags (dom (events d)) batch))
           (count_of true (duplicate_flags (dom (events d)) batch))]).
Proof.
  unfold batch_tx_effect, bind_effect at 1. rewrite batch_effect_spec.
  unfold bind_effect, statement_effect, UPDATE_stats_effect, ret_effect; cbn.
  done.
Qed.

(** What [process_events_batch] does in every world. *)
Lemma process_events_batch_outcome now batch worker_id w :
  match process_events_batch now batch worker_id w with
  | (Ok r, w') =>
      pool w = true
      ∧ r = (batch_tx_effect now batch worker_id (committed w)).1.1
      ∧ w' = commit_world (batch_tx_effect now batch worker_id (committed w)).1.2
               (batch_tx_effect now batch worker_id (committed w)).2 w
  | (Raise e, w') =>
      committed w' = committed w ∧ redis_client w' = redis_client w
      ∧ pool w' = pool w ∧ json_codec w' = json_codec w
      ∧ (pool w = false ∨ faults w ≠ [] ∨ json_codec w = false)
  end.
Proof.
  unfold process_events_batch. rewrite get_connection_run.
  destruct (pool w) eqn:Hp; [|by auto 10].
  pose proof (transaction_outcome _ _ w (refines_batch_tx now worker_id batch)) as H.
  destruct (transaction _ w) as [[r|e] w']; [tauto|].
  destruct H as (? & ? & ? & ? & ?). repeat split; try done; [congruence | tauto].
Qed.

Lemma calm_commit_world d log w : calm w → calm (commit_world d log w).
Proof. intros [Hp Hf]. split; cbn; [done|]. by rewrite Hf. Qed.

Lemma nominal_commit_world d log w : nominal w → nominal (commit_world d log w).
Proof. intros [Hc Hj]. split; [by apply calm_commit_world | done]. Qed.

Lemma process_event_new now event worker_id w :
  nominal w → events (committed w) !! key event = None →
  process_event now event worker_id w
  = (Ok (true, false),
     commit_world (first_admission now event worker_id (committed w))
       [INSERT_events (key event); UPDATE_stats 1 1 0;
        INSERT_audit_log (key event) false] w).
Proof.
  intros [[Hp Hf] Hj] Hk.
  pose proof (process_event_outcome now event worker_id w) as H.
  destruct (process_event now event worker_id w) as [[r|e] w'].
  - rewrite (admission_effect_new _ _ _ _ Hk) in H. by destruct H as (_ & -> & ->).
  - destruct H as (_ & _ & _ & _ & [H|[H|H]]); congruence.
Qed.

Lemma process_event_dup now event worker_id w row :
  nominal w → events (committed w) !! key event = Some row →
  process_event now event worker_id w
  = (Ok (true, true),
     commit_world (repeat_admission now event worker_id (committed w))
       [INSERT_events (key event); UPDATE_stats 1 0 1;
        INSERT_audit_log (key event) true] w).
Proof.
  intros [[Hp Hf] Hj] Hk.
  pose proof (process_event_outcome now event worker_id w) as H.
  destruct (process_event now event worker_id w) as [[r|e] w'].
  - rewrite (admission_effect_dup _ _ _ _ _ Hk) in H. by destruct H as (_ & -> & ->).
  - destruct H as (_ & _ & _ & _ & [H|[H|H]]); congruence.
Qed.

(** Every further admission of a stored event is a duplicate: it leaves
    the events table alone, counts as received and dropped, and adds one
    duplicate audit row. *)
Lemma process_each_stored event attempts : ∀ w row st,
  nominal w → events (committed w) !! key event = Some row →
  stats (committed w) = Some st →
  ∃ wN stN rows,
    process_each event attempts w
    = (Ok (replicate (length attempts) (true, true)), wN)
    ∧ events (committed wN) = events (committed w)
    ∧ stats (committed wN) = Some stN
    ∧ st_received stN = st_received st + Z.of_nat (length attempts)
    ∧ st_unique_processed stN = st_unique_processed st
    ∧ st_duplicate_dropped stN = st_duplicate_dropped st + Z.of_nat (length attempts)
    ∧ audit_log (committed wN) = audit_log (committed w) ++ rows
    ∧ length rows = length attempts
    ∧ Forall (λ r, audit_key r = key event ∧ al_is_duplicate r = true) rows.
Proof.
  induction attempts as [|[now worker_id] rest IH]; intros w row st Hc Hk Hs.
  - exists w, st, []. cbn. rewrite app_nil_r, !Z.add_0_r. by repeat split.
  - cbn [process_each]. unfold mbind at 1, M_bind at 1.
    rewrite (process_event_dup _ _ _ _ row Hc Hk).
    set (w1 := commit_world _ _ w).
    destruct (IH w1 row (bump now 1 0 1 st)) as (wN & stN & rows & Hrun & He & Hst & Hr & Hu & Hd & Ha & Hl & Hall).
    { by apply nominal_commit_world. }
    { done. }
    { cbn. by rewrite Hs. }
    exists wN, stN, (audit_row now event true worker_id :: rows).
    unfold mbind, M_bind. rewrite Hrun. cbn in *.
    rewrite He, Hst, Hr, Hu, Hd, Ha, Hl, <- app_assoc.
    repeat split; try done; try lia.
    by constructor.
Qed.

Lemma filter_first_admission event rows :
  Forall (λ r, audit_key r = key event ∧ al_is_duplicate r = true) rows →
  filter (λ r, al_is_duplicate r = false) rows = [].
Proof.
  induction 1 as [|r rows [_ Hr] _ IH]; [done|].
  rewrite filter_cons_False; [done | congruence].
Qed.

(** What the admission is written to do. On a pool that carries the JSON
    codec, admitting an event that is not yet stored [N >= 1] times, each
    attempt at its own instant and by its own worker, leaves the events
    table as the first admission left it; [received] has grown by [N],
    [unique_processed] by 1, [duplicate_dropped] by [N - 1]; and the
    audit log has gained exactly [N] rows, all for the key of the event,
    exactly one of them with [is_duplicate = false]. *)
Lemma idempotent_with_the_codec event first rest w st :
  nominal w →
  events (committed w) !! key event = None →
  stats (committed w) = Some st →
  ∃ w1 wN stN rows,
    process_event first.1 event first.2 w = (Ok (true, false), w1)
    ∧ process_each event (first :: rest) w
      = (Ok ((true, false) :: replicate (length rest) (true, true)), wN)
    ∧ events (committed wN) = events (committed w1)
    ∧ stats (committed wN) = Some stN
    ∧ st_received stN = st_received st + Z.of_nat (S (length rest))
    ∧ st_unique_processed stN = st_unique_processed st + 1
    ∧ st_duplicate_dropped stN
      = st_duplicate_dropped st + (Z.of_nat (S (length rest)) - 1)
    ∧ audit_log (committed wN) = audit_log (committed w) ++ rows
    ∧ length rows = S (length rest)
    ∧ Forall (λ r, audit_key r = key event) rows
    ∧ length (filter (λ r, al_is_duplicate r = false) rows) = 1%nat.
Proof.
  intros Hc Hk Hs. destruct first as [now worker_id].
  pose proof (process_event_new now event worker_id w Hc Hk) as H1.
  set (w1 := commit_world _ _ w) in H1.
  destruct (process_each_stored event rest w1 (new_row now event worker_id)
              (bump now 1 1 0 st))
    as (wN & stN & rows & Hrun & He & Hst & Hr & Hu & Hd & Ha & Hl & Hall).
  { by apply nominal_commit_world. }
  { cbn. apply lookup_insert_eq. }
  { cbn. by rewrite Hs. }
  exists w1, wN, stN, (audit_row now event false worker_id :: rows).
  cbn [process_each fst snd]. unfold mbind, M_bind. rewrite H1, Hrun.
  cbn -[filter] in *. rewrite Hst, Hr, Hu, Hd, Ha, Hl, <- app_assoc.
  repeat split; try done; try lia.
  - constructor; [done|]. eapply Forall_impl; [exact Hall|]. by intros r [? ?].
  - rewrite filter_cons_True by done.
    by rewrite (filter_first_admission event rows Hall).
Qed.

(** ** The pool of [init_db] *)

Lemma init_db_pool w0 w :
  init_db w0 = (Ok (), w) →
  pool w = true ∧ json_codec w = false ∧ committed w = committed w0.
Proof.
  unfold init_db. destruct (faulty w0); [done|]. by intros [= <-].
Qed.

(** On a pool without the JSON codec the insert never goes through: the
    driver refuses [event.payload], the fifth argument, and the
    transaction is rolled back. *)
Lemma process_event_without_codec now event worker_id w :
  pool w = true → json_codec w = false →
  ∃ e w',
    process_event now event worker_id w = (Raise e, w')
    ∧ committed w' = committed w
    ∧ pool w' = true ∧ json_codec w' = false
    ∧ (faults w = [] →
       e = DataError (INSERT_events (key event)) 5
       ∧ faults w' = []
       ∧ tx w' = None
       ∧ journal w' = journal w ++ [BEGIN; ROLLBACK]).
Proof.
  intros Hp Hj. destruct w as [p jc c t j f r]; cbn in *; subst.
  unfold process_event, get_connection, get_pool, transaction, tr_start,
    try_except, fetchrow_INSERT_events, query, mbind, M_bind; cbn.
  destruct f as [|[] f]; cbn.
  - eexists _, _. split; [reflexivity|]. cbn. by rewrite <- app_assoc.
  - eexists _, _. split; [reflexivity|]. by cbn.
  - destruct f as [|[] f]; cbn; eexists _, _; (split; [reflexivity|]); by cbn.
Qed.

(** C1. The code does not do what the claim says. On the pool that
    [init_db] builds, which has no JSON codec, admitting an event [N >= 1]
    times stops at the first attempt: [process_event] raises, the
    transaction is rolled back, and the events table, the stats row and
    the audit log are what they were. When the store answers every
    statement the error is the [DataError] of the driver for the fifth
    argument of the insert, the payload. *)
Theorem admission_raises_on_the_pool_of_init_db event first rest w :
  pool w = true → json_codec w = false →
  ∃ e w',
    process_event first.1 event first.2 w = (Raise e, w')
    ∧ process_each event (first :: rest) w = (Raise e, w')
    ∧ events (committed w') = events (committed w)
    ∧ stats (committed w') = stats (committed w)
    ∧ audit_log (committed w') = audit_log (committed w)
    ∧ (faults w = [] →
       e = DataError (INSERT_events (key event)) 5
       ∧ journal w' = journal w ++ [BEGIN; ROLLBACK]).
Proof.
  intros Hp Hj. destruct first as [now worker_id].
  destruct (process_event_without_codec now event worker_id w Hp Hj)
    as (e & w' & Hrun & Hc & _ & _ & Hcalm).
  exists e, w'. cbn [fst snd process_each]. unfold mbind, M_bind.
  rewrite Hrun, Hc. repeat split; try done; by apply Hcalm.
Qed.

(** Scenario 1 on the service as the code starts it: the first admission
    of [t/e1] raises, and nothing is recorded. *)
Lemma admission_raises_on_the_pool_of_init_db_witness :
  pool deployed = true ∧ json_codec deployed = false
  ∧ ∃ w',
      process_each (sample "t" "e1" 0)
        [(10, worker_name "0"); (11, worker_name "1"); (12, worker_name "2")]
        deployed
      = (Raise (DataError (INSERT_events (key (sample "t" "e1" 0))) 5), w')
      ∧ events (committed w') = ∅
      ∧ stats (committed w') = stats bootstrap
      ∧ audit_log (committed w') = [].
Proof.
  split; [reflexivity|]. split; [reflexivity|].
  destruct (admission_raises_on_the_pool_of_init_db (sample "t" "e1" 0)
              (10, worker_name "0") [(11, worker_name "1"); (12, worker_name "2")]
              deployed eq_refl eq_refl)
    as (e & w' & _ & Hrun & He & Hs & Ha & Hcalm).
  destruct (Hcalm eq_refl) as [-> _].
  exists w'. split; [exact Hrun|]. split; [exact He|]. split; [exact Hs | exact Ha].
Defined.

Lemma received_le_refl d : received_le d d.
Proof. unfold received_le. by destruct (stats d). Qed.

Lemma stats_invariant_bump now dr du dd d d' :
  stats d' = bump now dr du dd <$> stats d →
  dr = du + dd → 0 ≤ dr →
  stats_invariant d → stats_invariant d' ∧ received_le d d'.
Proof.
  intros Hs Heq Hpos Hinv. unfold stats_invariant, received_le. rewrite Hs.
  destruct (stats d) as [st|] eqn:Hst; cbn; [|done].
  split; [|lia]. intros st' [= <-]. cbn. specialize (Hinv st Hst). lia.
Qed.

(** C2. Whatever the store does to the statements of an admission or of
    a batch (answer them or fail any of them), the state committed after
    [process_event] and after [process_events_batch] satisfies
    [received = unique_processed + duplicate_dropped] if the state before
    did, and [received] has not decreased. *)
Theorem counters_consistent now event batch worker_id w :
  stats_invariant (committed w) →
  (stats_invariant (committed (process_event now event worker_id w).2)
   ∧ received_le (committed w)
       (committed (process_event now event worker_id w).2))
  ∧ (stats_invariant (committed (process_events_batch now batch worker_id w).2)
     ∧ received_le (committed w)
         (committed (process_events_batch now batch worker_id w).2)).
Proof.
  intros Hinv. split.
  - pose proof (process_event_outcome now event worker_id w) as H.
    destruct (process_event now event worker_id w) as [[r|e] w']; cbn [snd].
    + destruct H as (_ & _ & ->).
      destruct (events (committed w) !! key event) as [row|] eqn:Hk.
      * rewrite (admission_effect_dup _ _ _ _ _ Hk). cbn.
        by apply (stats_invariant_bump now 1 0 1 (committed w)).
      * rewrite (admission_effect_new _ _ _ _ Hk). cbn.
        by apply (stats_invariant_bump now 1 1 0 (committed w)).
    + destruct H as (-> & _). split; [done | apply received_le_refl].
  - pose proof (process_events_batch_outcome now batch worker_id w) as H.
    destruct (process_events_batch now batch worker_id w) as [[r|e] w']; cbn [snd].
    + destruct H as (_ & _ & ->). rewrite batch_tx_effect_spec. cbn.
      eapply stats_invariant_bump; [done| |lia|done].
      by rewrite count_of_total, length_duplicate_flags.
    + destruct H as (-> & _). split; [done | apply received_le_refl].
Qed.

(** The invariant on the fresh service, across one admission and across
    one batch with a repeated key. *)
Lemma counters_consistent_witness :
  stats_invariant (committed service)
  ∧ (stats_invariant
       (committed (process_event 10 (sample "t" "e1" 0) (worker_name "0") service).2)
     ∧ received_le (committed service)
         (committed (process_event 10 (sample "t" "e1" 0) (worker_name "0") service).2))
  ∧ (stats_invariant
       (committed (process_events_batch 10
                     [sample "t" "e1" 0; sample "t" "e2" 1; sample "t" "e1" 2]
                     (worker_name "0") service).2)
     ∧ received_le (committed service)
         (committed (process_events_batch 10
                       [sample "t" "e1" 0; sample "t" "e2" 1; sample "t" "e1" 2]
                       (worker_name "0") service).2)).
Proof.
  assert (stats_invariant (committed service)) as H.
  { intros st [= <-]. reflexivity. }
  split; [exact H|].
  exact (counters_consistent 10 (sample "t" "e1" 0)
           [sample "t" "e1" 0; sample "t" "e2" 1; sample "t" "e1" 2]
           (worker_name "0") service H).
Defined.

Lemma duplicate_flags_lookup batch : ∀ stored i event,
  batch !! i = Some event →
  duplicate_flags stored batch !! i
  = Some (bool_decide (key event ∈ stored ∨ key event ∈ key <$> take i batch)).
Proof.
  induction batch as [|e0 rest IH]; intros stored i event Hi; [done|].
  destruct i as [|i]; cbn in *.
  - injection Hi as ->. f_equal. apply bool_decide_ext.
    rewrite elem_of_nil. tauto.
  - rewrite (IH _ _ _ Hi). f_equal. apply bool_decide_ext.
    rewrite elem_of_union, elem_of_singleton, elem_of_cons. tauto.
Qed.

(** What the batch is written to do. On a pool that carries the JSON
    codec, in a calm world, [process_events_batch] runs the whole batch in
    one transaction and returns [(processed, duplicates)] with
    [processed + duplicates = N]. The event at position [i] is a duplicate
    exactly when its key was stored before the batch or belongs to an
    earlier event of the batch, and the others are the processed ones.
    One audit row is appended per event, in order. The statements sent
    are BEGIN, the insert and the audit append of each event in turn, one
    UPDATE of stats, which adds [N] to [received], [processed] to
    [unique_processed] and [duplicates] to [duplicate_dropped], and
    COMMIT. *)
Lemma batch_with_the_codec now batch worker_id w :
  nominal w →
  ∃ flags w',
    flags = duplicate_flags (dom (events (committed w))) batch
    ∧ process_events_batch now batch worker_id w
      = (Ok (count_of false flags, count_of true flags), w')
    ∧ count_of false flags + count_of true flags = Z.of_nat (length batch)
    ∧ (∀ i event, batch !! i = Some event →
         flags !! i
         = Some (bool_decide (key event ∈ dom (events (committed w))
                              ∨ key event ∈ key <$> take i batch)))
    ∧ events (committed w') = store_all now worker_id batch (events (committed w))
    ∧ audit_log (committed w')
      = audit_log (committed w) ++ batch_audit now worker_id batch flags
    ∧ length (batch_audit now worker_id batch flags) = length batch
    ∧ stats (committed w')
      = bump now (Z.of_nat (length batch)) (count_of false flags)
          (count_of true flags) <$> stats (committed w)
    ∧ journal w'
      = journal w
        ++ BEGIN :: batch_journal batch flags
        ++ [UPDATE_stats (Z.of_nat (length batch)) (count_of false flags)
              (count_of true flags); COMMIT]
    ∧ tx w' = None.
Proof.
  intros [[Hp Hf] Hj].
  pose proof (process_events_batch_outcome now batch worker_id w) as H.
  rewrite batch_tx_effect_spec in H. cbn [fst snd] in H.
  set (flags := duplicate_flags (dom (events (committed w))) batch) in *.
  destruct (process_events_batch now batch worker_id w) as [[r|e] w'].
  2:{ destruct H as (_ & _ & _ & _ & [H|[H|H]]); congruence. }
  destruct H as (_ & -> & ->).
  eexists flags, _. split; [done|]. split; [done|].
  assert (length flags = length batch) as Hlen by apply length_duplicate_flags.
  split; [by rewrite count_of_total, Hlen|].
  split; [intros i event Hi; by apply duplicate_flags_lookup|].
  cbn. repeat split.
  - unfold batch_audit. rewrite length_zip_with. lia.
  - by rewrite <- !app_assoc.
Qed.

Lemma process_events_batch_without_codec now event rest worker_id w :
  pool w = true → json_codec w = false →
  ∃ e w',
    process_events_batch now (event :: rest) worker_id w = (Raise e, w')
    ∧ committed w' = committed w
    ∧ (faults w = [] →
       e = DataError (INSERT_events (key event)) 5
       ∧ journal w' = journal w ++ [BEGIN; ROLLBACK]).
Proof.
  intros Hp Hj. destruct w as [p jc c t j f r]; cbn in *; subst.
  unfold process_events_batch, get_connection, get_pool, transaction, tr_start,
    try_except, mbind, M_bind; cbn.
  unfold fetchrow_INSERT_events, query, mbind, M_bind; cbn.
  destruct f as [|[] f]; cbn.
  - eexists _, _. split; [reflexivity|]. cbn. by rewrite <- app_assoc.
  - eexists _, _. split; [reflexivity|]. by cbn.
  - destruct f as [|[] f]; cbn; eexists _, _; (split; [reflexivity|]); by cbn.
Qed.

(** C3. The code does not do what the claim says. On the pool that
    [init_db] builds, a batch that is not empty is never processed:
    [process_events_batch] raises at the insert of its first event, the
    transaction is rolled back, no pair [(processed, duplicates)] is
    returned, no audit row is appended and stats is not updated. When the
    store answers every statement the error is the [DataError] of the
    driver for the payload of the first event. *)
Theorem batch_raises_on_the_pool_of_init_db now event rest worker_id w :
  pool w = true → json_codec w = false →
  ∃ e w',
    process_events_batch now (event :: rest) worker_id w = (Raise e, w')
    ∧ events (committed w') = events (committed w)
    ∧ stats (committed w') = stats (committed w)
    ∧ audit_log (committed w') = audit_log (committed w)
    ∧ (faults w = [] →
       e = DataError (INSERT_events (key event)) 5
       ∧ journal w' = journal w ++ [BEGIN; ROLLBACK]).
Proof.
  intros Hp Hj.
  destruct (process_events_batch_without_codec now event rest worker_id w Hp Hj)
    as (e & w' & Hrun & Hc & Hcalm).
  exists e, w'. rewrite Hc. repeat split; try done; by apply Hcalm.
Qed.

(** Scenario 2 on the service as the code starts it: the batch of 8
    raises at its first insert. *)
Lemma batch_raises_on_the_pool_of_init_db_witness :
  pool deployed = true ∧ json_codec deployed = false
  ∧ ∃ w',
      process_events_batch 10 batch_of_8 (str_of_string "api-sync") deployed
      = (Raise (DataError (INSERT_events (key (sample "t" "e1" 1))) 5), w')
      ∧ stats (committed w') = stats bootstrap
      ∧ audit_log (committed w') = []
      ∧ journal w' = [BEGIN; ROLLBACK].
Proof.
  split; [reflexivity|]. split; [reflexivity|].
  destruct (batch_raises_on_the_pool_of_init_db 10 (sample "t" "e1" 1)
              (tail batch_of_8) (str_of_string "api-sync") deployed eq_refl eq_refl)
    as (e & w' & Hrun & _ & Hs & Ha & Hcalm).
  destruct (Hcalm eq_refl) as [-> Hj].
  exists w'. split; [exact Hrun|]. split; [exact Hs|]. split; [exact Ha | exact Hj].
Defined.

(** What the dedup key is written to be. On a pool that carries the JSON
    codec, in a calm world that stores neither [(A, X)] nor [(B, X)], with
    [A ≠ B], admitting an event with key [(A, X)] and then one with key
    [(B, X)] reports both as new, and both rows are stored afterwards. *)
Lemma cross_topic_with_the_codec now1 now2 worker1 worker2 e1 e2 w :
  nominal w →
  event_id e1 = event_id e2 →
  topic e1 ≠ topic e2 →
  events (committed w) !! key e1 = None →
  events (committed w) !! key e2 = None →
  ∃ w1 w2,
    process_event now1 e1 worker1 w = (Ok (true, false), w1)
    ∧ process_event now2 e2 worker2 w1 = (Ok (true, false), w2)
    ∧ events (committed w2) !! key e1 = Some (new_row now1 e1 worker1)
    ∧ events (committed w2) !! key e2 = Some (new_row now2 e2 worker2).
Proof.
  intros Hc Hid Ht Hk1 Hk2.
  assert (key e1 ≠ key e2) as Hne by (unfold key; congruence).
  pose proof (process_event_new now1 e1 worker1 w Hc Hk1) as H1.
  set (w1 := commit_world _ _ w) in H1.
  assert (events (committed w1) !! key e2 = None) as Hk2'.
  { cbn. by rewrite lookup_insert_ne. }
  pose proof (process_event_new now2 e2 worker2 w1
                (nominal_commit_world _ _ _ Hc) Hk2') as H2.
  eexists _, _. split; [exact H1|]. split; [exact H2|]. cbn. split.
  - rewrite lookup_insert_ne by done. apply lookup_insert_eq.
  - apply lookup_insert_eq.
Qed.

(** C5. The code does not do what the claim says. On the pool that
    [init_db] builds, admitting an event with key [(A, X)] and then one
    with key [(B, X)] records neither as new: both calls of
    [process_event] raise, no value [is_duplicate] is returned, and the
    events table is what it was. When the store answers every statement
    both errors are the [DataError] of the driver for the payload. *)
Theorem cross_topic_raises_on_the_pool_of_init_db now1 now2 worker1 worker2 e1 e2 w :
  pool w = true → json_codec w = false →
  ∃ x1 w1 x2 w2,
    process_event now1 e1 worker1 w = (Raise x1, w1)
    ∧ process_event now2 e2 worker2 w1 = (Raise x2, w2)
    ∧ events (committed w2) = events (committed w)
    ∧ audit_log (committed w2) = audit_log (committed w)
    ∧ (faults w = [] →
       x1 = DataError (INSERT_events (key e1)) 5
       ∧ x2 = DataError (INSERT_events (key e2)) 5).
Proof.
  intros Hp Hj.
  destruct (process_event_without_codec now1 e1 worker1 w Hp Hj)
    as (x1 & w1 & Hrun1 & Hc1 & Hp1 & Hj1 & Hcalm1).
  destruct (process_event_without_codec now2 e2 worker2 w1 Hp1 Hj1)
    as (x2 & w2 & Hrun2 & Hc2 & _ & _ & Hcalm2).
  exists x1, w1, x2, w2. rewrite Hc2, Hc1. repeat split; try done.
  - by apply Hcalm1.
  - apply Hcalm2. by apply Hcalm1.
Qed.

(** Scenario 4 on the service as the code starts it: [alpha/X] then
    [beta/X]. *)
Lemma cross_topic_raises_on_the_pool_of_init_db_witness :
  pool deployed = true ∧ json_codec deployed = false
  ∧ topic (sample "alpha" "X" 1) ≠ topic (sample "beta" "X" 2)
  ∧ ∃ w1 w2,
      process_event 10 (sample "alpha" "X" 1) (str_of_string "api-sync") deployed
      = (Raise (DataError (INSERT_events (key (sample "alpha" "X" 1))) 5), w1)
      ∧ process_event 11 (sample "beta" "X" 2) (str_of_string "api-sync") w1
        = (Raise (DataError (INSERT_events (key (sample "beta" "X" 2))) 5), w2)
      ∧ events (committed w2) = ∅.
Proof.
  split; [reflexivity|]. split; [reflexivity|]. split; [discriminate|].
  destruct (cross_topic_raises_on_the_pool_of_init_db 10 11
              (str_of_string "api-sync") (str_of_string "api-sync")
              (sample "alpha" "X" 1) (sample "beta" "X" 2) deployed eq_refl eq_refl)
    as (x1 & w1 & x2 & w2 & H1 & H2 & He & _ & Hcalm).
  destruct (Hcalm eq_refl) as [-> ->].
  exists w1, w2. split; [exact H1|]. split; [exact H2 | exact He].
Defined.

(** Unfolding a handler down to the primitives of the store. *)
Ltac run_store :=
  unfold process_event, get_connection, transaction, get_pool,
    fetchrow_INSERT_events, query, refused, execute_UPDATE_stats,
    execute_INSERT_audit_log,
    INSERT_events_effect, UPDATE_stats_effect, INSERT_audit_log_effect,
    statement, tr_start, tr_commit, tr_rollback, try_except, raise,
    faulty, current, put_db, log_stmt, set_tx, consume_fault,
    mbind, M_bind, mret, M_ret;
  cbn.

(** C6. With the pool up, let the store fail the statement at position
    [k] of an admission (0 BEGIN, 1 the insert, 2 the update of stats, 3
    the audit append, 4 COMMIT) after answering the earlier ones. Then
    [process_event] raises the error of that very statement, and the
    committed events table, stats row and audit log are what they were;
    from position 1 on, the journal shows the statements that went through
    followed by ROLLBACK, and no transaction is left open. On a pool
    without the JSON codec no position after the insert is reached: when
    the store answers the insert, the driver refuses its payload, and it
    is that [DataError] which is raised, with the same rollback. *)
Theorem failed_admission_rolls_back now event worker_id w k s rest :
  pool w = true →
  faults w = replicate k false ++ true :: rest →
  admission_steps now event worker_id (committed w) !! k = Some s →
  ∃ w',
    process_event now event worker_id w
    = (Raise (if json_codec w || (k <=? 1)%nat then PostgresError s
              else DataError (INSERT_events (key event)) 5), w')
    ∧ committed w' = committed w
    ∧ ((1 ≤ k)%nat →
       tx w' = None
       ∧ journal w'
         = journal w
           ++ take (if json_codec w then k else 1%nat)
                (admission_steps now event worker_id (committed w))
           ++ [ROLLBACK]).
Proof.
  intros Hp Hf Hs. destruct w as [p jc c t j f r]; cbn in *; subst.
  unfold admission_steps, INSERT_events_effect in *.
  destruct jc;
    destruct (events c !! key event) as [row|] eqn:Hk;
    destruct k as [|[|[|[|[|k]]]]]; cbn in Hs; try done;
    injection Hs as <-; eexists; run_store; rewrite ?Hk; cbn;
    (split; [reflexivity|]); (split; [reflexivity|]); intros Hk1; try lia;
    (split; [reflexivity|]); by rewrite <- ?app_assoc.
Qed.

(** The update of stats fails during a first admission: the insert that
    went through is rolled back. On the pool of [init_db] the same plan
    of the store never gets that far. *)
Lemma failed_admission_rolls_back_witness :
  pool (failing_at 2) = true
  ∧ faults (failing_at 2) = replicate 2 false ++ [true]
  ∧ (∃ w',
       process_event 10 (sample "t" "e1" 0) (worker_name "0") (failing_at 2)
       = (Raise (PostgresError (UPDATE_stats 1 1 0)), w')
       ∧ committed w' = bootstrap
       ∧ ((1 ≤ 2)%nat →
          tx w' = None
          ∧ journal w' = [BEGIN; INSERT_events (key (sample "t" "e1" 0)); ROLLBACK]))
  ∧ (∃ w',
       process_event 10 (sample "t" "e1" 0) (worker_name "0")
         (with_faults (replicate 2 false ++ [true]) deployed)
       = (Raise (DataError (INSERT_events (key (sample "t" "e1" 0))) 5), w')
       ∧ committed w' = bootstrap
       ∧ ((1 ≤ 2)%nat → tx w' = None ∧ journal w' = [BEGIN; ROLLBACK])).
Proof.
  split; [reflexivity|]. split; [reflexivity|]. split.
  - exact (failed_admission_rolls_back 10 (sample "t" "e1" 0) (worker_name "0")
             (failing_at 2) 2 (UPDATE_stats 1 1 0) [] eq_refl eq_refl eq_refl).
  - exact (failed_admission_rolls_back 10 (sample "t" "e1" 0) (worker_name "0")
             (with_faults (replicate 2 false ++ [true]) deployed) 2
             (UPDATE_stats 1 1 0) [] eq_refl eq_refl eq_refl).
Defined.

(** C10. In every world, [process_event] either returns a pair whose
    first component is [True], or raises, and then it has committed
    nothing. It never returns with the success flag [False]. *)
Theorem success_flag_is_constant now event worker_id w :
  (∃ is_duplicate w',
     process_event now event worker_id w = (Ok (true, is_duplicate), w'))
  ∨ (∃ e w',
       process_event now event worker_id w = (Raise e, w')
       ∧ committed w' = committed w).
Proof.
  pose proof (process_event_outcome now event worker_id w) as H.
  destruct (process_event now event worker_id w) as [[r|e] w'].
  - left. destruct H as (_ & -> & _).
    destruct (events (committed w) !! key event) as [row|] eqn:Hk.
    + rewrite (admission_effect_dup _ _ _ _ _ Hk). by eexists _, _.
    + rewrite (admission_effect_new _ _ _ _ Hk). by eexists _, _.
  - right. destruct H as (H & _). by eexists _, _.
Qed.

Lemma lstrip_decompose v :
  ∃ l, v = l ++ lstrip v
       ∧ Forall (λ c, isspace c = true) l
       ∧ ∀ c, head (lstrip v) = Some c → isspace c = false.
Proof.
  induction v as [|c v (l & Hv & Hl & Hh)].
  - exists []. by repeat split.
  - cbn. destruct (isspace c) eqn:Hc.
    + exists (c :: l). split; [by rewrite Hv at 1|]. split; [by constructor|done].
    + exists []. repeat split; [done|]. intros c' [= <-]. done.
Qed.

Lemma rstrip_decompose v :
  ∃ r, v = rstrip v ++ r
       ∧ Forall (λ c, isspace c = true) r
       ∧ ∀ c, last (rstrip v) = Some c → isspace c = false.
Proof.
  destruct (lstrip_decompose (reverse v)) as (l & Hv & Hl & Hh).
  exists (reverse l). unfold rstrip. split; [|split].
  - rewrite <- reverse_app, <- Hv. by rewrite reverse_involutive.
  - by apply Forall_reverse.
  - intros c. rewrite last_reverse. apply Hh.
Qed.

(** [strip] removes a run of whitespace at each end and nothing else,
    and what is left neither starts nor ends with whitespace. *)
Lemma strip_decompose v :
  ∃ l r, v = l ++ strip v ++ r
         ∧ Forall (λ c, isspace c = true) l
         ∧ Forall (λ c, isspace c = true) r
         ∧ (∀ c, head (strip v) = Some c → isspace c = false)
         ∧ (∀ c, last (strip v) = Some c → isspace c = false).
Proof.
  destruct (lstrip_decompose v) as (l & Hv & Hl & Hh).
  destruct (rstrip_decompose (lstrip v)) as (r & Hu & Hr & Ht).
  exists l, r. unfold strip. repeat split; try done.
  - by rewrite <- Hu.
  - intros c Hc. apply Hh. rewrite Hu.
    destruct (rstrip (lstrip v)); [done|]. exact Hc.
Qed.

Lemma topic_field_rejects v :
  rejected (topic_field v)
  ↔ encodable v = false ∨ (255 < length v)%nat ∨ strip v = [].
Proof.
  unfold rejected, topic_field, after, Field, validate_topic.
  destruct (encodable v) eqn:He; cbn [negb]; [|split; eauto].
  destruct (Nat.ltb_spec (length v) 1) as [H1|H1].
  { destruct v; cbn in H1; [|lia]. split; eauto. }
  destruct (Nat.ltb_spec 255 (length v)) as [H255|H255]; [split; eauto|].
  case_bool_decide as Hs; [split; eauto|].
  split; [by intros [err [=]] | intros [?|[?|?]]; [done | lia | done]].
Qed.

Lemma event_id_field_rejects v :
  rejected (event_id_field v)
  ↔ encodable v = false ∨ (255 < length v)%nat ∨ strip v = [].
Proof.
  unfold rejected, event_id_field, after, Field, validate_event_id.
  destruct (encodable v) eqn:He; cbn [negb]; [|split; eauto].
  destruct (Nat.ltb_spec (length v) 1) as [H1|H1].
  { destruct v; cbn in H1; [|lia]. split; eauto. }
  destruct (Nat.ltb_spec 255 (length v)) as [H255|H255]; [split; eauto|].
  case_bool_decide as Hs; [split; eauto|].
  split; [by intros [err [=]] | intros [?|[?|?]]; [done | lia | done]].
Qed.

Lemma topic_field_accepts v t : topic_field v = inr t → t = strip v.
Proof.
  unfold topic_field, after, Field, validate_topic.
  repeat case_match; congruence.
Qed.

Lemma event_id_field_accepts v t : event_id_field v = inr t → t = strip v.
Proof.
  unfold event_id_field, after, Field, validate_event_id.
  repeat case_match; congruence.
Qed.

(** C4, as the code has it. [topic] and [event_id] are rejected exactly
    when the value as received holds a lone surrogate, is longer than 255
    characters, or has an empty trimmed value; trimming removes a run of
    whitespace at each end and nothing else. An event that passes
    validation carries the trimmed values, and they form its dedup key;
    an event that does not is refused with a validation error. *)
Theorem validation_of_topic_and_event_id raw :
  (rejected (topic_field (raw_topic raw))
   ↔ encodable (raw_topic raw) = false
     ∨ (255 < length (raw_topic raw))%nat ∨ strip (raw_topic raw) = [])
  ∧ (rejected (event_id_field (raw_event_id raw))
     ↔ encodable (raw_event_id raw) = false
       ∨ (255 < length (raw_event_id raw))%nat ∨ strip (raw_event_id raw) = [])
  ∧ (∃ l r, raw_topic raw = l ++ strip (raw_topic raw) ++ r
            ∧ Forall (λ c, isspace c = true) l
            ∧ Forall (λ c, isspace c = true) r
            ∧ (∀ c, head (strip (raw_topic raw)) = Some c → isspace c = false)
            ∧ (∀ c, last (strip (raw_topic raw)) = Some c → isspace c = false))
  ∧ (∃ l r, raw_event_id raw = l ++ strip (raw_event_id raw) ++ r
            ∧ Forall (λ c, isspace c = true) l
            ∧ Forall (λ c, isspace c = true) r
            ∧ (∀ c, head (strip (raw_event_id raw)) = Some c → isspace c = false)
            ∧ (∀ c, last (strip (raw_event_id raw)) = Some c → isspace c = false))
  ∧ match Event_init raw with
    | Ok event =>
        ¬ rejected (topic_field (raw_topic raw))
        ∧ ¬ rejected (event_id_field (raw_event_id raw))
        ∧ topic event = strip (raw_topic raw)
        ∧ event_id event = strip (raw_event_id raw)
        ∧ key event = (strip (raw_topic raw), strip (raw_event_id raw))
    | Raise e =>
        (∃ errors, e = ValidationError errors)
        ∧ (rejected (topic_field (raw_topic raw))
           ∨ rejected (event_id_field (raw_event_id raw))
           ∨ rejected (source_field (raw_source raw)))
    end.
Proof.
  split; [apply topic_field_rejects|]. split; [apply event_id_field_rejects|].
  split; [apply strip_decompose|]. split; [apply strip_decompose|].
  unfold Event_init, rejected.
  destruct (topic_field (raw_topic raw)) as [e1|t] eqn:Ht;
    destruct (event_id_field (raw_event_id raw)) as [e2|i] eqn:Hi;
    destruct (source_field (raw_source raw)) as [e3|s] eqn:Hs;
    try (split; eauto; fail).
  apply topic_field_accepts in Ht. apply event_id_field_accepts in Hi. subst.
  unfold key; cbn. repeat split; by intros [err [=]].
Qed.

(** The value [padded] is rejected as too long although its trimmed value
    is the single letter: rejection does not follow the trimmed length. *)
Lemma trimmed_length_counterexample :
  length padded = 256%nat
  ∧ strip padded = str_of_string "a"
  ∧ topic_field padded = inl (string_too_long f_topic 255)
  ∧ event_id_field padded = inl (string_too_long f_event_id 255)
  ∧ ¬ rejects_on_trimmed_value topic_field
  ∧ ¬ rejects_on_trimmed_value event_id_field.
Proof.
  assert (strip padded = str_of_string "a") as Hs by (vm_compute; reflexivity).
  split; [vm_compute; reflexivity|]. split; [exact Hs|].
  split; [vm_compute; reflexivity|]. split; [vm_compute; reflexivity|].
  split; intros H; destruct (H padded) as [H1 _].
  - destruct H1 as [H1|H1].
    + eexists. vm_compute. reflexivity.
    + rewrite Hs in H1. discriminate.
    + rewrite Hs in H1. cbn in H1. lia.
  - destruct H1 as [H1|H1].
    + eexists. vm_compute. reflexivity.
    + rewrite Hs in H1. discriminate.
    + rewrite Hs in H1. cbn in H1. lia.
Qed.

#[local] Instance newest_first_total : Total newest_first.
Proof. intros a b. unfold newest_first. lia. Qed.

#[local] Instance newest_first_trans : Transitive newest_first.
Proof. intros a b c. unfold newest_first. lia. Qed.

Lemma elem_of_rows_of topic d row :
  row ∈ rows_of topic d
  ↔ (∃ k, events d !! k = Some row) ∧ selected topic row.
Proof.
  assert (row ∈ (map_to_list (events d)).*2 ↔ ∃ k, events d !! k = Some row) as Hall.
  { rewrite list_elem_of_fmap. split.
    - intros ([k r] & -> & Hin). exists k. by apply elem_of_map_to_list.
    - intros [k Hk]. exists (k, row). split; [done|]. by apply elem_of_map_to_list. }
  unfold rows_of, selected. destruct topic as [[|c t]|]; cbn.
  - rewrite Hall. tauto.
  - rewrite list_elem_of_filter, Hall. tauto.
  - rewrite Hall. tauto.
Qed.

Lemma encodes_int8 codec n : - 2 ^ 63 ≤ n < 2 ^ 63 → encodes codec (arg_int8 n) = true.
Proof.
  intros [Hlo Hhi]. unfold encodes. apply andb_true_intro.
  split; [by apply Z.leb_le | by apply Z.ltb_lt].
Qed.

Lemma refused_SELECT_events codec topic limit offset :
  - 2 ^ 63 ≤ limit < 2 ^ 63 →
  refused codec (SELECT_events_args topic limit offset)
  = if bool_decide (- 2 ^ 63 ≤ offset < 2 ^ 63) then None
    else Some (if truthy topic then 3%nat else 2%nat).
Proof.
  intros Hl. unfold refused, SELECT_events_args.
  assert (encodes codec (arg_int8 offset)
          = bool_decide (- 2 ^ 63 ≤ offset < 2 ^ 63)) as Ho.
  { case_bool_decide as H; [by apply encodes_int8|].
    unfold encodes. apply andb_false_iff.
    destruct (Z.leb_spec (- 2 ^ 63) offset); [right | by left].
    apply Z.ltb_ge. lia. }
  destruct topic as [[|c t]|]; cbn [truthy refused_from];
    rewrite ?(encodes_int8 _ _ Hl), Ho; cbn [encodes];
    by case_bool_decide.
Qed.

Lemma EventResponse_list_codec rows :
  EventResponse_list true rows = Ok (to_EventResponse <$> rows).
Proof. induction rows as [|row rows IH]; [done|]. cbn. by rewrite IH. Qed.

Lemma EventResponse_list_no_codec row rows :
  EventResponse_list false (row :: rows) = Raise (ValidationError [dict_type f_payload]).
Proof. done. Qed.

(** The window of an event-list query. *)
Lemma list_events_body_calm topic limit offset w :
  calm w → tx w = None → 0 ≤ limit < 2 ^ 63 → 0 ≤ offset < 2 ^ 63 →
  list_events_body topic limit offset w
  = match EventResponse_list (json_codec w)
            (take (Z.to_nat limit)
               (drop (Z.to_nat offset)
                  (merge_sort newest_first (rows_of topic (committed w))))) with
    | Ok page =>
        (Ok {| elr_events := page;
               elr_total := Z.of_nat (length (rows_of topic (committed w)));
               elr_topic := topic |},
         listed topic limit offset w)
    | Raise e =>
        (Raise (HTTPException 500 e),
         {| pool := pool w; json_codec := json_codec w; committed := committed w;
            tx := tx w;
            journal := journal w ++ [SELECT_events topic limit offset];
            faults := faults w; redis_client := redis_client w |})
    end.
Proof.
  intros [Hp Hf] Ht Hl Ho. destruct w as [p jc c t j f r]; cbn in *; subst.
  unfold list_events_body, get_events, get_event_count, fetch_SELECT_events.
  unfold try_except, get_connection, get_pool, mbind, M_bind. cbn [pool faulty faults].
  cbn [json_codec].
  rewrite refused_SELECT_events by lia.
  rewrite bool_decide_eq_true_2 by lia.
  assert ((limit <? 0) || (offset <? 0) = false) as ->.
  { apply orb_false_intro; apply Z.ltb_ge; lia. }
  unfold listed, statement, faulty, current, put_db, log_stmt, decodes_json,
    result_of, raise, mret, M_ret.
  cbn -[merge_sort EventResponse_list].
  destruct (EventResponse_list jc _) as [page|e]; cbn; [|done].
  by rewrite <- app_assoc.
Qed.

Lemma list_events_body_overflow topic limit offset w :
  calm w → 0 ≤ limit < 2 ^ 63 → 2 ^ 63 ≤ offset →
  list_events_body topic limit offset w
  = (Raise (HTTPException 500
              (DataError (SELECT_events topic limit offset)
                 (if truthy topic then 3%nat else 2%nat))), w).
Proof.
  intros [Hp Hf] Hl Ho. destruct w as [p jc c t j f r]; cbn in *; subst.
  unfold list_events_body, get_events, get_event_count, fetch_SELECT_events.
  unfold try_except, get_connection, get_pool, mbind, M_bind. cbn [pool faulty faults].
  cbn [json_codec].
  rewrite refused_SELECT_events by lia.
  rewrite bool_decide_eq_false_2 by lia.
  done.
Qed.

Lemma StronglySorted_window {A} (R : relation A) (l : list A) (n m : nat) :
  StronglySorted R l → StronglySorted R (take n (drop m l)).
Proof.
  intros H. rewrite <- (take_drop m l) in H. apply StronglySorted_app_1_r in H.
  rewrite <- (take_drop n (drop m l)) in H. by apply StronglySorted_app_1_l in H.
Qed.

Lemma Query_in_range loc default_value lo hi v :
  lo ≤ v ≤ hi → Query loc default_value (Some lo) (Some hi) (Some v) = inr v.
Proof.
  intros [Hlo Hhi]. cbn.
  destruct (Z.ltb_spec v lo); [lia|]. by destruct (Z.ltb_spec hi v); [lia|].
Qed.

Lemma Query_at_least loc default_value lo v :
  lo ≤ v → Query loc default_value (Some lo) None (Some v) = inr v.
Proof. intros Hlo. cbn. by destruct (Z.ltb_spec v lo); [lia|]. Qed.

(** C7, as the code has it. An event-list query takes [limit] (100 when
    absent) and [offset] (0 when absent). When [limit] is outside
    [[1, 1000]] or [offset] is negative, the request is refused with 422
    and nothing is sent to the store: the limit is validated, not
    clamped. Otherwise the store is asked for the rows selected by the
    topic, ordered newest first by timestamp, cut to the window of
    [limit] rows after the first [offset]; an answer that is returned
    lists that window, in that order, with the total number of selected
    rows. An offset that does not fit 64 bits is refused by the driver
    and answered with 500; and so is, on a pool without the JSON codec,
    a window that is not empty, since its payloads arrive as text. *)
Theorem list_events_contract topic limit offset w :
  calm w → tx w = None →
  if bool_decide (1 ≤ default 100 limit ≤ 1000 ∧ 0 ≤ default 0 offset) then
    ∃ sorted page,
      page = take (Z.to_nat (default 100 limit))
               (drop (Z.to_nat (default 0 offset)) sorted)
      ∧ StronglySorted newest_first sorted
      ∧ (∀ row, row ∈ sorted
                ↔ (∃ k, events (committed w) !! k = Some row) ∧ selected topic row)
      ∧ sorted ≡ₚ rows_of topic (committed w)
      ∧ Z.of_nat (length page) ≤ default 100 limit
      ∧ (if bool_decide (default 0 offset < 2 ^ 63) then
           if json_codec w || bool_decide (page = []) then
             ∃ entries,
               list_events topic limit offset w
               = (Ok {| elr_events := entries;
                        elr_total := Z.of_nat (length sorted);
                        elr_topic := topic |},
                  listed topic (default 100 limit) (default 0 offset) w)
               ∧ Forall2 entry_of page entries
               ∧ StronglySorted newest_first_response entries
           else
             ∃ w',
               list_events topic limit offset w
               = (Raise (HTTPException 500 (ValidationError [dict_type f_payload])),
                  w')
               ∧ committed w' = committed w
         else
           list_events topic limit offset w
           = (Raise (HTTPException 500
                       (DataError
                          (SELECT_events topic (default 100 limit) (default 0 offset))
                          (if truthy topic then 3%nat else 2%nat))), w))
  else
    ∃ errors,
      list_events topic limit offset w
      = (Raise (HTTPException 422 (ValidationError errors)), w).
Proof.
  intros Hc Ht. case_bool_decide as Hv.
  - destruct Hv as [Hl Ho].
    exists (merge_sort newest_first (rows_of topic (committed w))).
    eexists. split; [reflexivity|].
    assert (StronglySorted newest_first
              (merge_sort newest_first (rows_of topic (committed w)))) as Hs
      by apply (StronglySorted_merge_sort _).
    split; [exact Hs|]. split; [|split; [|split]].
    + intros row. rewrite merge_sort_Permutation. apply elem_of_rows_of.
    + apply merge_sort_Permutation.
    + rewrite length_take. lia.
    + unfold list_events.
      assert (Query f_limit 100 (Some 1) (Some 1000) limit = inr (default 100 limit))
        as -> by (destruct limit; [by apply Query_in_range | done]).
      assert (Query f_offset 0 (Some 0) None offset = inr (default 0 offset))
        as -> by (destruct offset; [by apply Query_at_least | done]).
      case_bool_decide as Hfit.
      * rewrite list_events_body_calm by (done || lia).
        rewrite (Permutation_length (merge_sort_Permutation _ _)).
        set (page := take _ _).
        assert (Forall2 entry_of page (to_EventResponse <$> page)
                ∧ StronglySorted newest_first_response (to_EventResponse <$> page))
          as Hentries.
        { split.
          - apply Forall2_fmap_r, Forall_Forall2_diag, Forall_forall.
            intros row _. by repeat split.
          - apply (StronglySorted_fmap _ newest_first); [done|].
            by apply StronglySorted_window. }
        destruct (json_codec w); cbn [orb].
        { rewrite EventResponse_list_codec. eexists. split; [reflexivity|].
          exact Hentries. }
        destruct page as [|row rows]; [by exists []|].
        rewrite bool_decide_eq_false_2 by done.
        rewrite EventResponse_list_no_codec. by eexists.
      * apply list_events_body_overflow; [done | lia | lia].
  - unfold list_events.
    destruct limit as [l|], offset as [o|]; cbn in *;
      repeat (match goal with
              | |- context [?a <? ?b] => destruct (Z.ltb_spec a b)
              end; cbn);
      try (exfalso; apply Hv; lia); by eexists.
Qed.

(** A page of two rows after the first one, on the stocked service; the
    same request on the pool of [init_db] is answered with 500. *)
Lemma list_events_contract_witness :
  calm stocked ∧ tx stocked = None
  ∧ (∃ response w',
       list_events (Some (str_of_string "t")) (Some 2) (Some 1) stocked
       = (Ok response, w')
       ∧ StronglySorted newest_first_response (elr_events response)
       ∧ length (elr_events response) = 2%nat)
  ∧ calm deployed_on_stock ∧ tx deployed_on_stock = None
  ∧ (∃ w',
       list_events (Some (str_of_string "t")) (Some 2) (Some 1) deployed_on_stock
       = (Raise (HTTPException 500 (ValidationError [dict_type f_payload])), w')).
Proof.
  assert (calm stocked) as Hc by (split; vm_compute; reflexivity).
  assert (tx stocked = None) as Ht by (vm_compute; reflexivity).
  assert (calm deployed_on_stock) as Hc' by (split; reflexivity).
  assert (tx deployed_on_stock = None) as Ht' by reflexivity.
  split; [exact Hc|]. split; [exact Ht|]. split; [|split; [exact Hc'|split; [exact Ht'|]]].
  - pose proof (list_events_contract (Some (str_of_string "t")) (Some 2) (Some 1)
                  stocked Hc Ht) as H.
    rewrite bool_decide_eq_true_2 in H by (cbn; lia).
    destruct H as (sorted & page & Hpage & _ & _ & Hperm & _ & Hrun).
    rewrite bool_decide_eq_true_2 in Hrun by (cbn; lia).
    change (json_codec stocked) with true in Hrun. cbn [orb] in Hrun.
    destruct Hrun as (entries & Hrun & Hrows & Hsorted).
    eexists _, _. split; [exact Hrun|]. cbn [elr_events].
    split; [exact Hsorted|].
    rewrite <- (Forall2_length _ _ _ Hrows), Hpage, length_take, length_drop.
    rewrite (Permutation_length Hperm).
    assert (length (rows_of (Some (str_of_string "t")) (committed stocked)) = 5%nat)
      as -> by (vm_compute; reflexivity).
    reflexivity.
  - pose proof (list_events_contract (Some (str_of_string "t")) (Some 2) (Some 1)
                  deployed_on_stock Hc' Ht') as H.
    rewrite bool_decide_eq_true_2 in H by (cbn; lia).
    destruct H as (sorted & page & Hpage & _ & _ & Hperm & _ & Hrun).
    rewrite bool_decide_eq_true_2 in Hrun by (cbn; lia).
    change (json_codec deployed_on_stock) with false in Hrun. cbn [orb] in Hrun.
    assert (length page = 2%nat) as Hlen.
    { rewrite Hpage, length_take, length_drop, (Permutation_length Hperm).
      assert (length (rows_of (Some (str_of_string "t"))
                        (committed deployed_on_stock)) = 5%nat)
        as -> by (vm_compute; reflexivity).
      reflexivity. }
    rewrite bool_decide_eq_false_2 in Hrun by (intros ->; discriminate Hlen).
    destruct Hrun as (w' & Hrun & _). by exists w'.
Defined.

(** The page of that query: of the five stored events, with timestamps 1
    to 5, the second and third newest. *)
Example list_events_page :
  match (list_events (Some (str_of_string "t")) (Some 2) (Some 1) stocked).1 with
  | Ok response =>
      er_timestamp <$> elr_events response = [4; 3] ∧ elr_total response = 5
  | Raise _ => False
  end.
Proof. vm_compute. by split. Qed.

(** A limit of 5000, or of 0, is refused where the clamped limit would be
    served. *)
Lemma limit_not_clamped :
  clamp 5000 = 1000
  ∧ (list_events None (Some 5000) None stocked).1
    = Raise (HTTPException 422 (ValidationError [less_than_equal f_limit 1000]))
  ∧ match (list_events None (Some (clamp 5000)) None stocked).1 with
    | Ok response => length (elr_events response) = 5%nat
    | Raise _ => False
    end
  ∧ clamp 0 = 1
  ∧ (list_events None (Some 0) None stocked).1
    = Raise (HTTPException 422 (ValidationError [greater_than_equal f_limit 1]))
  ∧ ¬ limit_is_clamped.
Proof.
  split; [reflexivity|]. split; [vm_compute; reflexivity|].
  split; [vm_compute; reflexivity|].
  split; [reflexivity|]. split; [vm_compute; reflexivity|].
  intros H. specialize (H None 5000 None stocked).
  apply (f_equal fst) in H. vm_compute in H. discriminate.
Qed.

Lemma published_count (n subs : nat) :
  length (filter (λ r, (0 < r)%nat) (replicate n subs))
  = if decide (0 < subs)%nat then n else 0%nat.
Proof.
  destruct (decide (0 < subs)%nat) as [H|H];
    induction n as [|n IH]; cbn -[filter]; try done.
  - rewrite filter_cons_True by done. cbn -[filter]. by rewrite IH.
  - by rewrite filter_cons_False.
Qed.

Lemma queue_commands_dumpable events :
  Forall (λ event, dumpable (JObject (payload event)) = true) events →
  ∃ documents,
    queue_commands events = Ok documents
    ∧ Forall2 (λ event document, model_dump_json event = Ok document) events documents.
Proof.
  induction 1 as [|event rest He _ (documents & Hq & Hall)].
  - exists []. split; [done | constructor].
  - destruct (model_dump_json event) as [document|e] eqn:Hd.
    + exists (document :: documents). cbn [queue_commands]. rewrite Hd, Hq.
      split; [done | by constructor].
    + unfold model_dump_json in Hd. by rewrite He in Hd.
Qed.

Lemma queue_commands_not_dumpable events :
  ¬ Forall (λ event, dumpable (JObject (payload event)) = true) events →
  queue_commands events = Raise PydanticSerializationError.
Proof.
  induction events as [|event rest IH]; intros Hn.
  - destruct Hn. constructor.
  - cbn [queue_commands]. unfold model_dump_json at 1.
    destruct (dumpable (JObject (payload event))) eqn:Hd; [|done].
    rewrite IH; [done|]. intros Hrest. apply Hn. by constructor.
Qed.

Lemma events_of_submitted request : events_of request = submitted request.
Proof. by destruct request. Qed.

Lemma publish_events_batch_reachable events documents w client :
  redis_client w = Some client → reachable client = true →
  queue_commands events = Ok documents →
  publish_events_batch events w
  = (Ok (if decide (0 < subscribers client)%nat then length documents else 0%nat),
     match documents with
     | [] => w
     | _ :: _ =>
         set_redis {| reachable := true; subscribers := subscribers client;
                      channel := channel client ++ documents |} w
     end).
Proof.
  intros Hr Hup Hq.
  unfold publish_events_batch, get_redis, result_of, pipe_execute, mbind, M_bind,
    mret, M_ret.
  rewrite Hr, Hq. destruct documents as [|document documents].
  - cbn. by destruct (decide _).
  - rewrite Hup. cbn -[filter replicate length].
    by rewrite published_count.
Qed.

(** C9, as the code has it. With the transport reachable, a submission
    of [N] events whose payloads the serializer can write, sent with
    [sync = false], publishes the [N] documents to the channel, in order,
    and answers with success, [received = N], [processed = 0] and
    [duplicates = 0]; [N] is 1 for a single event and the length of the
    list for a batch. It sends no statement to the store and leaves the
    tables as they were: no dedup result is part of the answer. *)
Theorem publish_async_reports_zero now request w client :
  redis_client w = Some client →
  reachable client = true →
  Forall (λ event, dumpable (JObject (payload event)) = true) (submitted request) →
  ∃ documents w',
    publish now request false w
    = (Ok {| success := true;
             message :=
               Published_to_queue
                 (if decide (0 < subscribers client)%nat
                  then length (submitted request) else 0%nat);
             received := Z.of_nat (length (submitted request));
             duplicates := 0;
             processed := 0;
             event_ids := event_id <$> submitted request |}, w')
    ∧ Forall2 (λ event document, model_dump_json event = Ok document)
        (submitted request) documents
    ∧ Forall2 document_of (submitted request) documents
    ∧ redis_client w'
      = Some {| reachable := true; subscribers := subscribers client;
                channel := channel client ++ documents |}
    ∧ committed w' = committed w
    ∧ tx w' = tx w
    ∧ journal w' = journal w.
Proof.
  intros Hr Hup Hd.
  destruct (queue_commands_dumpable _ Hd) as (documents & Hq & Hall).
  exists documents. unfold publish, try_except, mbind, M_bind.
  rewrite events_of_submitted.
  rewrite (publish_events_batch_reachable _ documents w client Hr Hup Hq).
  rewrite <- (Forall2_length _ _ _ Hall).
  eexists. split; [reflexivity|]. split; [exact Hall|].
  split.
  { eapply Forall2_impl; [exact Hall|]. intros event document Hdump.
    unfold model_dump_json in Hdump.
    destruct (dumpable _); [|done]. by injection Hdump as <-. }
  destruct documents as [|document documents]; [|done].
  rewrite app_nil_r, Hr. destruct client; cbn in *; subst. done.
Qed.

(** The batch of 8 published with [sync = false] to four subscribers. *)
Lemma publish_async_reports_zero_witness :
  redis_client service
  = Some {| reachable := true; subscribers := 4; channel := [] |}
  ∧ ∃ w',
      publish 10 (Batch batch_of_8) false service
      = (Ok {| success := true;
               message := Published_to_queue 8;
               received := 8;
               duplicates := 0;
               processed := 0;
               event_ids := event_id <$> batch_of_8 |}, w')
      ∧ committed w' = bootstrap
      ∧ journal w' = [].
Proof.
  split; [reflexivity|].
  destruct (publish_async_reports_zero 10 (Batch batch_of_8) service
              {| reachable := true; subscribers := 4; channel := [] |}
              eq_refl eq_refl)
    as (documents & w' & Hrun & _ & _ & _ & Hc & _ & Hj).
  { repeat constructor. }
  exists w'. split; [exact Hrun|]. split; [exact Hc | exact Hj].
Defined.

(** A valid event whose payload holds a lone surrogate is not published:
    the serializer raises, and the submission is answered with 500 although
    the transport is reachable. *)
Lemma unserializable_submission :
  Event_init {| raw_topic := str_of_string "t"; raw_event_id := str_of_string "e1";
                raw_timestamp := 0; raw_source := str_of_string "s";
                raw_payload := lone_surrogate_payload |}
  = Ok lone_surrogate_event
  ∧ redis_client service
    = Some {| reachable := true; subscribers := 4; channel := [] |}
  ∧ publish 10 (Single lone_surrogate_event) false service
    = (Raise (HTTPException 500 PydanticSerializationError), service)
  ∧ ¬ async_submission_reports_zero.
Proof.
  assert (Event_init {| raw_topic := str_of_string "t";
                        raw_event_id := str_of_string "e1";
                        raw_timestamp := 0; raw_source := str_of_string "s";
                        raw_payload := lone_surrogate_payload |}
          = Ok lone_surrogate_event) as Hv by (vm_compute; reflexivity).
  assert (publish 10 (Single lone_surrogate_event) false service
          = (Raise (HTTPException 500 PydanticSerializationError), service)) as Hrun
    by (vm_compute; reflexivity).
  split; [exact Hv|]. split; [reflexivity|]. split; [exact Hrun|].
  intros H.
  destruct (H 10 (Single lone_surrogate_event) service
              {| reachable := true; subscribers := 4; channel := [] |}
              eq_refl eq_refl)
    as (response & w' & Hok & _).
  { constructor; [by eexists | constructor]. }
  rewrite Hrun in Hok. discriminate.
Qed.

#[local] Set Warnings "-clear-no-such-hyp".

(** ** The tables across a batch *)

Lemma store_all_cons now worker_id event rest table :
  store_all now worker_id (event :: rest) table
  = store_all now worker_id rest
      (match table !! key event with
       | Some _ => table
       | None => <[key event := new_row now event worker_id]> table
       end).
Proof. reflexivity. Qed.

Lemma store_all_lookup_Some now worker_id batch : ∀ table k row,
  table !! k = Some row →
  store_all now worker_id batch table !! k = Some row.
Proof.
  induction batch as [|event rest IH]; intros table k row Hk; [done|].
  cbn. apply IH. destruct (table !! key event) eqn:He; [done|].
  rewrite lookup_insert_ne; [done|]. intros <-. congruence.
Qed.

Lemma size_store_all now worker_id batch : ∀ table,
  Z.of_nat (size (store_all now worker_id batch table))
  = Z.of_nat (size table) + count_of false (duplicate_flags (dom table) batch).
Proof.
  induction batch as [|event rest IH]; intros table.
  - unfold count_of; cbn. lia.
  - rewrite store_all_cons. cbn [duplicate_flags].
    rewrite count_of_cons. destruct (table !! key event) as [row|] eqn:He.
    + rewrite IH.
      assert (bool_decide (key event ∈ dom table) = true) as ->
        by (apply bool_decide_eq_true_2; by eapply elem_of_dom_2).
      rewrite (subseteq_union_1_L {[key event]} (dom table))
        by (apply singleton_subseteq_l; by eapply elem_of_dom_2).
      rewrite bool_decide_eq_false_2 by done. lia.
    + rewrite IH, dom_insert_L, map_size_insert_None by done.
      assert (bool_decide (key event ∈ dom table) = false) as ->
        by (apply bool_decide_eq_false_2; by apply not_elem_of_dom).
      rewrite bool_decide_eq_true_2 by done. lia.
Qed.

(** A property of the two tables that every single insert-and-audit
    step keeps is kept by the loop of a batch. *)
Lemma batch_tables_ind (I : gmap (str * str) StoredEvent → list AuditRecord → Prop)
    now worker_id :
  (∀ table log event row,
     I table log → table !! key event = Some row →
     I table (log ++ [audit_row now event true worker_id])) →
  (∀ table log event,
     I table log → table !! key event = None →
     I (<[key event := new_row now event worker_id]> table)
       (log ++ [audit_row now event false worker_id])) →
  ∀ batch table log,
    I table log →
    I (store_all now worker_id batch table)
      (log ++ batch_audit now worker_id batch (duplicate_flags (dom table) batch)).
Proof.
  intros Hdup Hnew. induction batch as [|event rest IH]; intros table log HI.
  - cbn. by rewrite app_nil_r.
  - rewrite store_all_cons. cbn [duplicate_flags]. unfold batch_audit. cbn [zip_with].
    fold (batch_audit now worker_id rest).
    destruct (table !! key event) as [row|] eqn:He.
    + rewrite bool_decide_eq_true_2 by (by eapply elem_of_dom_2).
      rewrite (subseteq_union_1_L {[key event]} (dom table))
        by (apply singleton_subseteq_l; by eapply elem_of_dom_2).
      rewrite cons_middle, app_assoc. apply IH. by eapply Hdup.
    + rewrite bool_decide_eq_false_2 by (by apply not_elem_of_dom).
      rewrite <- (dom_insert_L table (key event) (new_row now event worker_id)).
      rewrite cons_middle, app_assoc. apply IH. by apply Hnew.
Qed.

Lemma batch_audit_flag_count now worker_id (b : bool) batch : ∀ flags,
  length flags = length batch →
  Z.of_nat (length (filter (λ r, al_is_duplicate r = b)
                      (batch_audit now worker_id batch flags)))
  = count_of b flags.
Proof.
  unfold batch_audit.
  induction batch as [|event rest IH]; intros [|f flags] Hl; cbn -[filter count_of] in *;
    try done.
  rewrite count_of_cons, filter_cons. cbn -[filter count_of].
  case_decide; case_bool_decide; try done; cbn -[filter count_of];
    rewrite <- IH by lia; lia.
Qed.

(** ** What a call commits *)

Lemma committed_after_process_event now event worker_id w :
  committed (process_event now event worker_id w).2 = committed w
  ∨ committed (process_event now event worker_id w).2
    = admission_tables now worker_id (committed w) event.
Proof.
  pose proof (process_event_outcome now event worker_id w) as H.
  destruct (process_event now event worker_id w) as [[r|e] w']; cbn [snd].
  - right. destruct H as (_ & _ & ->). unfold admission_tables.
    destruct (events (committed w) !! key event) as [row|] eqn:Hk.
    + by rewrite (admission_effect_dup _ _ _ _ _ Hk).
    + by rewrite (admission_effect_new _ _ _ _ Hk).
  - left. by destruct H as (-> & _).
Qed.

Lemma committed_after_batch now batch worker_id w :
  committed (process_events_batch now batch worker_id w).2 = committed w
  ∨ committed (process_events_batch now batch worker_id w).2
    = batch_tables now worker_id batch (committed w).
Proof.
  pose proof (process_events_batch_outcome now batch worker_id w) as H.
  destruct (process_events_batch now batch worker_id w) as [[r|e] w']; cbn [snd].
  - right. destruct H as (_ & _ & ->). by rewrite batch_tx_effect_spec.
  - left. by destruct H as (-> & _).
Qed.

(** A property of the tables that every admission and every batch that
    goes through keeps is kept along every history, whatever the store
    fails. *)
Lemma history_ind (P : DB → Prop) :
  (∀ now worker_id d event, P d → P (admission_tables now worker_id d event)) →
  (∀ now worker_id d batch, P d → P (batch_tables now worker_id batch d)) →
  ∀ calls w, P (committed w) → P (committed (history calls w)).
Proof.
  intros H1 Hn. unfold history.
  induction calls as [|[c plan] calls IH]; intros w HP; [done|].
  cbn [foldl]. apply IH. unfold after_call. cbn [fst snd].
  destruct c as [now event worker_id | now batch worker_id].
  - destruct (committed_after_process_event now event worker_id (with_faults plan w))
      as [-> | ->]; [done | by apply H1].
  - destruct (committed_after_batch now batch worker_id (with_faults plan w))
      as [-> | ->]; [done | by apply Hn].
Qed.

Lemma first_rows_snoc k log r :
  first_rows k (log ++ [r])
  = (first_rows k log
     + if decide (audit_key r = k ∧ al_is_duplicate r = false) then 1 else 0)%nat.
Proof.
  unfold first_rows. rewrite filter_app, length_app. f_equal.
  rewrite filter_cons, filter_nil. by case_decide.
Qed.

Lemma tables_coherent_dup now worker_id table log event row :
  tables_coherent table log → table !! key event = Some row →
  tables_coherent table (log ++ [audit_row now event true worker_id]).
Proof.
  intros [Hone Hall] Hk. split.
  - intros k. rewrite first_rows_snoc, decide_False by (cbn; intros [_ ?]; done).
    rewrite Nat.add_0_r. apply Hone.
  - apply Forall_app. split; [done|]. constructor; [|done].
    change (is_Some (table !! key event)). by rewrite Hk.
Qed.

Lemma tables_coherent_new now worker_id table log event :
  tables_coherent table log → table !! key event = None →
  tables_coherent (<[key event := new_row now event worker_id]> table)
    (log ++ [audit_row now event false worker_id]).
Proof.
  intros [Hone Hall] Hk. split.
  - intros k. rewrite first_rows_snoc, Hone.
    destruct (decide (key event = k)) as [<-|Hne].
    + rewrite Hk, lookup_insert_eq, decide_True by done. done.
    + rewrite lookup_insert_ne by done.
      rewrite decide_False by (cbn; intros [? _]; done). apply Nat.add_0_r.
  - apply Forall_app. split.
    + eapply Forall_impl; [exact Hall|]. intros r Hr. cbn in Hr.
      rewrite lookup_insert_is_Some. destruct (decide (key event = audit_key r)); auto.
    + constructor; [|done].
      change (is_Some (<[key event := new_row now event worker_id]> table !! key event)).
      by rewrite lookup_insert_eq.
Qed.

(** X1. Along every history of admissions and batches, whatever
    statements the store fails, the audit log keeps mirroring the events
    table: a stored key has exactly one audit row with
    [is_duplicate = false], a key that is not stored has none, and every
    audit row is about a stored key. *)
Theorem audit_log_mirrors_events calls w :
  tables_coherent (events (committed w)) (audit_log (committed w)) →
  tables_coherent (events (committed (history calls w)))
    (audit_log (committed (history calls w))).
Proof.
  apply (history_ind (λ d, tables_coherent (events d) (audit_log d))).
  - intros now worker_id d event Hd. unfold admission_tables.
    destruct (events d !! key event) as [row|] eqn:Hk; cbn.
    + by eapply tables_coherent_dup.
    + by apply tables_coherent_new.
  - intros now worker_id d batch Hd. cbn.
    apply (batch_tables_ind tables_coherent now worker_id); [| |done].
    + intros. by eapply tables_coherent_dup.
    + intros. by apply tables_coherent_new.
Qed.

(** The fresh store is coherent, and so is the service after the sample
    history. *)
Lemma audit_log_mirrors_events_witness :
  tables_coherent (events (committed service)) (audit_log (committed service))
  ∧ tables_coherent (events (committed (history sample_history service)))
      (audit_log (committed (history sample_history service))).
Proof.
  assert (tables_coherent (events (committed service))
            (audit_log (committed service))) as H.
  { split; [intros k; cbn; by rewrite lookup_empty | constructor]. }
  split; [exact H|]. exact (audit_log_mirrors_events sample_history service H).
Defined.

Lemma counters_coherent_bump now dr du dd d d' :
  stats d' = bump now dr du dd <$> stats d →
  Z.of_nat (length (audit_log d')) = Z.of_nat (length (audit_log d)) + dr →
  Z.of_nat (size (events d')) = Z.of_nat (size (events d)) + du →
  Z.of_nat (length (filter (λ r, al_is_duplicate r = true) (audit_log d')))
  = Z.of_nat (length (filter (λ r, al_is_duplicate r = true) (audit_log d))) + dd →
  counters_coherent d → counters_coherent d'.
Proof.
  intros Hs Hr Hu Hd Hc st'. rewrite Hs.
  destruct (stats d) as [st|] eqn:Hst; [|done]. intros [= <-]. cbn.
  destruct (Hc st Hst) as (-> & -> & ->). lia.
Qed.

(** X2. Along every history of admissions and batches, whatever
    statements the store fails, the counters keep mirroring the tables:
    [received] is the number of audit rows, [unique_processed] the number
    of stored events, and [duplicate_dropped] the number of audit rows
    with [is_duplicate = true]. *)
Theorem counters_mirror_tables calls w :
  counters_coherent (committed w) →
  counters_coherent (committed (history calls w)).
Proof.
  apply (history_ind counters_coherent).
  - intros now worker_id d event Hd. unfold admission_tables.
    destruct (events d !! key event) as [row|] eqn:Hk.
    + apply (counters_coherent_bump now 1 0 1 d); cbn -[filter]; try done.
      * rewrite length_app. cbn. lia.
      * lia.
      * rewrite filter_app, length_app, filter_cons_True by done. cbn. lia.
    + apply (counters_coherent_bump now 1 1 0 d); cbn -[filter]; try done.
      * rewrite length_app. cbn. lia.
      * rewrite map_size_insert_None by done. lia.
      * rewrite filter_app, length_app, filter_cons_False by done. cbn. lia.
  - intros now worker_id d batch Hd.
    assert (length (duplicate_flags (dom (events d)) batch) = length batch) as Hl
      by apply length_duplicate_flags.
    eapply (counters_coherent_bump now _ _ _ d); cbn -[filter]; try done.
    + rewrite length_app. unfold batch_audit. rewrite length_zip_with. lia.
    + apply size_store_all.
    + rewrite filter_app, length_app, Nat2Z.inj_add.
      by rewrite batch_audit_flag_count.
Qed.

Lemma counters_mirror_tables_witness :
  counters_coherent (committed service)
  ∧ counters_coherent (committed (history sample_history service)).
Proof.
  assert (counters_coherent (committed service)) as H.
  { intros st [= <-]. by repeat split. }
  split; [exact H|]. exact (counters_mirror_tables sample_history service H).
Defined.

(** X3. A stored event is immutable: along every history of admissions
    and batches, whatever the later events with its key carry and
    whatever the store fails, the row of a stored key stays exactly as it
    was inserted. *)
Theorem stored_event_is_immutable calls w k row :
  events (committed w) !! k = Some row →
  events (committed (history calls w)) !! k = Some row.
Proof.
  apply (history_ind (λ d, events d !! k = Some row)).
  - intros now worker_id d event Hd. unfold admission_tables.
    destruct (events d !! key event) as [row'|] eqn:Hk; cbn; [done|].
    rewrite lookup_insert_ne; [done|]. intros <-. congruence.
  - intros now worker_id d batch Hd. cbn. by apply store_all_lookup_Some.
Qed.

Lemma stored_event_is_immutable_witness :
  events (committed (history (take 1 sample_history) service))
    !! key (sample "t" "e1" 1)
  = Some (new_row 10 (sample "t" "e1" 1) (worker_name "0"))
  ∧ events (committed (history (drop 1 sample_history)
                         (history (take 1 sample_history) service)))
      !! key (sample "t" "e1" 1)
    = Some (new_row 10 (sample "t" "e1" 1) (worker_name "0")).
Proof.
  assert (events (committed (history (take 1 sample_history) service))
            !! key (sample "t" "e1" 1)
          = Some (new_row 10 (sample "t" "e1" 1) (worker_name "0"))) as H
    by (vm_compute; reflexivity).
  split; [exact H|].
  exact (stored_event_is_immutable (drop 1 sample_history)
           (history (take 1 sample_history) service) _ _ H).
Defined.

(** ** The empty batch *)

(** The empty batch needs no codec: it sends no insert. *)
Lemma process_events_batch_empty now worker_id w :
  calm w →
  process_events_batch now [] worker_id w
  = (Ok (0, 0),
     commit_world (batch_tables now worker_id [] (committed w))
       [UPDATE_stats 0 0 0] w).
Proof.
  intros [Hp Hf]. destruct w as [p jc c t j f r]; cbn in *; subst.
  unfold process_events_batch, get_connection, get_pool, transaction, tr_start,
    tr_commit, try_except, execute_UPDATE_stats, statement, mbind, M_bind, mret, M_ret.
  cbn. unfold commit_world, batch_tables, UPDATE_stats_effect, count_of, log_stmt.
  cbn. by rewrite <- !app_assoc, app_nil_r.
Qed.

(** X5. An empty batch is not a no-op. In a calm world
    [process_events_batch] on the empty list returns [(0, 0)] and leaves
    the events table, the audit log and the three counters alone, but it
    does run a transaction whose one statement is the update of stats, so
    [last_updated_at] becomes the instant of the call. *)
Theorem empty_batch_touches_stats now worker_id w :
  calm w →
  ∃ w',
    process_events_batch now [] worker_id w = (Ok (0, 0), w')
    ∧ events (committed w') = events (committed w)
    ∧ audit_log (committed w') = audit_log (committed w)
    ∧ stats (committed w')
      = (λ st, {| st_received := st_received st;
                  st_unique_processed := st_unique_processed st;
                  st_duplicate_dropped := st_duplicate_dropped st;
                  st_started_at := st_started_at st;
                  st_last_updated_at := now |}) <$> stats (committed w)
    ∧ journal w' = journal w ++ [BEGIN; UPDATE_stats 0 0 0; COMMIT].
Proof.
  intros Hc. eexists. split; [by apply process_events_batch_empty|].
  cbn. rewrite app_nil_r. repeat split.
  destruct (stats (committed w)) as [st|]; [|done]. cbn. f_equal.
  unfold bump. f_equal; unfold count_of; cbn; lia.
Qed.

Lemma empty_batch_touches_stats_witness :
  calm service
  ∧ ∃ w',
      process_events_batch 10 [] (str_of_string "api-sync") service = (Ok (0, 0), w')
      ∧ stats (committed w')
        = Some {| st_received := 0; st_unique_processed := 0;
                  st_duplicate_dropped := 0; st_started_at := 0;
                  st_last_updated_at := 10 |}
      ∧ journal w' = [BEGIN; UPDATE_stats 0 0 0; COMMIT].
Proof.
  split; [by split|].
  destruct (empty_batch_touches_stats 10 (str_of_string "api-sync") service)
    as (w' & Hrun & _ & _ & Hs & Hj); [by split|].
  exists w'. split; [exact Hrun|]. split; [exact Hs | exact Hj].
Defined.

(** ** Validating twice *)

Lemma lstrip_fixed s :
  (∀ c, head s = Some c → isspace c = false) → lstrip s = s.
Proof. destruct s as [|c s]; [done|]. intros H. cbn. by rewrite (H c). Qed.

Lemma strip_idempotent v : strip (strip v) = strip v.
Proof.
  destruct (strip_decompose v) as (l & r & _ & _ & _ & Hh & Ht).
  unfold strip at 1. rewrite (lstrip_fixed _ Hh). unfold rstrip.
  rewrite lstrip_fixed; [apply reverse_involutive|].
  intros c. rewrite head_reverse. apply Ht.
Qed.

Lemma length_strip v : (length (strip v) ≤ length v)%nat.
Proof.
  destruct (strip_decompose v) as (l & r & Hv & _).
  rewrite Hv at 2. rewrite !length_app. lia.
Qed.

Lemma encodable_strip v : encodable v = true → encodable (strip v) = true.
Proof.
  destruct (strip_decompose v) as (l & r & Hv & _).
  unfold encodable. rewrite Hv at 1. rewrite !forallb_app.
  intros H. apply andb_prop in H as [_ H]. by apply andb_prop in H as [H _].
Qed.

Lemma Field_accepts loc v u :
  Field loc 1 255 v = inr u →
  u = v ∧ encodable v = true ∧ (1 ≤ length v ≤ 255)%nat.
Proof.
  unfold Field. destruct (encodable v); cbn [negb]; [|done].
  destruct (Nat.ltb_spec (length v) 1); [done|].
  destruct (Nat.ltb_spec 255 (length v)); [done|].
  intros [= <-]. repeat split; [done | lia].
Qed.

Lemma Field_again loc v :
  encodable v = true → (1 ≤ length v ≤ 255)%nat → Field loc 1 255 v = inr v.
Proof.
  intros He [H1 H255]. unfold Field. rewrite He. cbn [negb].
  destruct (Nat.ltb_spec (length v) 1); [lia|].
  by destruct (Nat.ltb_spec 255 (length v)); [lia|].
Qed.

Lemma accepted_value_is_valid (loc : FieldName) (msg : string) v :
  Field loc 1 255 v = inr v → strip v ≠ [] →
  after (Field loc 1 255 (strip v))
    (λ u, if bool_decide (strip u = []) then inl (value_error loc msg)
          else inr (strip u))
  = inr (strip v).
Proof.
  intros Hf Hs. apply Field_accepts in Hf as (_ & He & H1 & H255).
  pose proof (length_strip v).
  rewrite Field_again.
  - unfold after. rewrite strip_idempotent. by rewrite bool_decide_eq_false_2.
  - by apply encodable_strip.
  - destruct (strip v); [done | cbn in *; lia].
Qed.

Lemma topic_field_again v t : topic_field v = inr t → topic_field t = inr t.
Proof.
  unfold topic_field, validate_topic. intros H.
  destruct (Field f_topic 1 255 v) as [err|v'] eqn:Hf; [done|]. cbn in H.
  destruct (Field_accepts _ _ _ Hf) as [-> _].
  case_bool_decide as Hs; [done|]. injection H as <-.
  by apply (accepted_value_is_valid f_topic).
Qed.

Lemma event_id_field_again v t : event_id_field v = inr t → event_id_field t = inr t.
Proof.
  unfold event_id_field, validate_event_id. intros H.
  destruct (Field f_event_id 1 255 v) as [err|v'] eqn:Hf; [done|]. cbn in H.
  destruct (Field_accepts _ _ _ Hf) as [-> _].
  case_bool_decide as Hs; [done|]. injection H as <-.
  by apply (accepted_value_is_valid f_event_id).
Qed.

Lemma source_field_again v s : source_field v = inr s → source_field s = inr s.
Proof.
  unfold source_field. intros H.
  destruct (Field_accepts _ _ _ H) as (-> & He & Hl). by apply Field_again.
Qed.

(** X8. Validation is idempotent. When [Event] accepts some input and
    yields [event], it accepts the fields of [event] again and yields the
    same [event]: a trimmed value is a fixed point of trimming, it holds
    no lone surrogate, and it is neither empty nor longer than 255
    characters. *)
Theorem validation_is_idempotent raw event :
  Event_init raw = Ok event →
  Event_init (fields_of event) = Ok event
  ∧ strip (topic event) = topic event
  ∧ strip (event_id event) = event_id event
  ∧ encodable (topic event) = true
  ∧ encodable (event_id event) = true
  ∧ encodable (source event) = true.
Proof.
  intros H. unfold Event_init in *.
  destruct (topic_field (raw_topic raw)) as [?|t] eqn:Ht;
    destruct (event_id_field (raw_event_id raw)) as [?|i] eqn:Hi;
    destruct (source_field (raw_source raw)) as [?|s] eqn:Hs; try done.
  injection H as <-. cbn.
  pose proof (topic_field_again _ _ Ht) as Ht'.
  pose proof (event_id_field_again _ _ Hi) as Hi'.
  rewrite Ht', Hi', (source_field_again _ _ Hs).
  split; [done|].
  pose proof (topic_field_accepts _ _ Ht') as Hts.
  pose proof (event_id_field_accepts _ _ Hi') as His.
  split; [done|]. split; [done|].
  unfold topic_field, event_id_field, source_field, after in *.
  destruct (Field f_topic 1 255 t) as [?|t'] eqn:Hft; [done|].
  destruct (Field f_event_id 1 255 i) as [?|i'] eqn:Hfi; [done|].
  destruct (Field_accepts _ _ _ Hft) as (_ & ? & _).
  destruct (Field_accepts _ _ _ Hfi) as (_ & ? & _).
  destruct (Field_accepts _ _ _ Hs) as (-> & _).
  destruct (Field_accepts _ _ _ (source_field_again _ _ Hs)) as (_ & ? & _).
  done.
Qed.

Lemma validation_is_idempotent_witness :
  Event_init {| raw_topic := str_of_string "  app.users.login ";
                raw_event_id := str_of_string " e1";
                raw_timestamp := 0; raw_source := str_of_string "s";
                raw_payload := [] |}
  = Ok (sample "app.users.login" "e1" 0)
  ∧ Event_init (fields_of (sample "app.users.login" "e1" 0))
    = Ok (sample "app.users.login" "e1" 0).
Proof.
  assert (Event_init {| raw_topic := str_of_string "  app.users.login ";
                        raw_event_id := str_of_string " e1";
                        raw_timestamp := 0; raw_source := str_of_string "s";
                        raw_payload := [] |}
          = Ok (sample "app.users.login" "e1" 0)) as H
    by (vm_compute; reflexivity).
  split; [exact H|].
  exact (proj1 (validation_is_idempotent _ _ H)).
Defined.

(** X11. After [close_db] every operation of the store adapter refuses
    with the same [RuntimeError] before reaching the store: nothing is
    sent, nothing changes, and the health probe answers [False] instead of
    raising. Closing twice is closing once. *)
Theorem closed_pool_refuses w now event batch worker_id topic limit offset now1 now2 :
  let closed := (close_db w).2 in
  let refusal :=
    RuntimeError "Database pool not initialized. Call init_db() first." in
  close_db w = (Ok (), closed)
  ∧ committed closed = committed w
  ∧ close_db closed = (Ok (), closed)
  ∧ process_event now event worker_id closed = (Raise refusal, closed)
  ∧ process_events_batch now batch worker_id closed = (Raise refusal, closed)
  ∧ get_events topic limit offset closed = (Raise refusal, closed)
  ∧ get_event_count topic closed = (Raise refusal, closed)
  ∧ get_stats now1 now2 closed = (Raise refusal, closed)
  ∧ check_db_health closed = (Ok false, closed).
Proof.
  intros closed refusal.
  assert (pool closed = false) as Hp.
  { subst closed. unfold close_db. by destruct (pool w) eqn:Hw. }
  split; [subst closed; unfold close_db; by destruct (pool w)|].
  split; [subst closed; unfold close_db; by destruct (pool w)|].
  split; [unfold close_db; by rewrite Hp|].
  unfold process_event, process_events_batch, get_events, get_event_count, get_stats.
  rewrite !get_connection_run, Hp. repeat (split; [done|]).
  unfold check_db_health, try_except, mbind, M_bind.
  by rewrite get_connection_run, Hp.
Qed.

Lemma store_all_rows now worker_id batch : ∀ table k row,
  store_all now worker_id batch table !! k = Some row →
  table !! k = Some row
  ∨ ∃ event, event ∈ batch ∧ k = (topic event, event_id event)
             ∧ inserted_for now worker_id event row.
Proof.
  induction batch as [|event rest IH]; intros table k row Hk; [by left|].
  rewrite store_all_cons in Hk. apply IH in Hk as [Hk|(e & He & -> & Hrow)].
  - destruct (table !! key event) eqn:Hin; [by left|].
    destruct (decide (k = key event)) as [->|Hne].
    + rewrite lookup_insert_eq in Hk. injection Hk as <-. right.
      exists event. split; [by left|]. by repeat split.
    + rewrite lookup_insert_ne in Hk by done. by left.
  - right. exists e. split; [by right | done].
Qed.

(** X12. A synchronous submission is all or nothing. Whatever the store
    fails and whatever the pool encodes, [publish] with [sync = true]
    either answers with success, [received = N = processed + duplicates]
    and the event ids in order, having committed the whole batch with its
    [N] audit rows, where [N] is 1 for a single event and the length of
    the list for a batch, and every row that is new has the columns of an
    event of the submission; or it raises [HTTPException] 500 and the
    tables are exactly as before. On a pool without the JSON codec it
    answers only a submission without events. *)
Theorem publish_sync_all_or_nothing now request w :
  match publish now request true w with
  | (Ok response, w') =>
      success response = true
      ∧ received response = Z.of_nat (length (submitted request))
      ∧ processed response + duplicates response = received response
      ∧ event_ids response = event_id <$> submitted request
      ∧ committed w'
        = batch_tables now (str_of_string "api-sync") (submitted request) (committed w)
      ∧ length (audit_log (committed w'))
        = (length (audit_log (committed w)) + length (submitted request))%nat
      ∧ (∀ k row,
           events (committed w') !! k = Some row →
           events (committed w) !! k = Some row
           ∨ ∃ event, event ∈ submitted request
                      ∧ k = (topic event, event_id event)
                      ∧ inserted_for now (str_of_string "api-sync") event row)
      ∧ (json_codec w = true ∨ submitted request = [])
  | (Raise e, w') =>
      (∃ cause, e = HTTPException 500 cause)
      ∧ committed w' = committed w
      ∧ redis_client w' = redis_client w
  end.
Proof.
  unfold publish, try_except, mbind, M_bind. rewrite events_of_submitted.
  pose proof (process_events_batch_outcome now (submitted request)
                (str_of_string "api-sync") w) as H.
  destruct (process_events_batch now (submitted request) (str_of_string "api-sync") w)
    as [[[p d]|e] w'] eqn:Hrun.
  - destruct H as (Hp & Hr & ->). rewrite batch_tx_effect_spec in Hr.
    injection Hr as -> ->. rewrite batch_tx_effect_spec. cbn.
    repeat split.
    + by rewrite count_of_total, length_duplicate_flags.
    + rewrite length_app. unfold batch_audit.
      rewrite length_zip_with, length_duplicate_flags. lia.
    + apply store_all_rows.
    + destruct (json_codec w) eqn:Hj; [by left | right].
      destruct (submitted request) as [|event rest]; [done|].
      destruct (process_events_batch_without_codec now event rest
                  (str_of_string "api-sync") w Hp Hj) as (? & ? & Hraise & _).
      congruence.
  - destruct H as (Hc & Hr & _). cbn. eauto.
Qed.

(** X15. The size of a page. In a calm world an event-list query with
    [limit] in [[1, 1000]] and an offset from 0 that fits 64 bits, when
    it is answered, gives the total number of selected rows, whatever the
    window, and a page of [min(limit, max(0, total - offset))] rows: a
    page past the end is empty, and only the last page can be short. It
    is answered whenever the pool carries the JSON codec or the page is
    empty; otherwise the answer is 500, and the tables are as before in
    either case. *)
Theorem list_events_page_size topic limit offset w :
  calm w → tx w = None →
  1 ≤ limit ≤ 1000 → 0 ≤ offset < 2 ^ 63 →
  match list_events topic (Some limit) (Some offset) w with
  | (Ok response, w') =>
      (json_codec w = true
       ∨ Z.of_nat (length (rows_of topic (committed w))) ≤ offset)
      ∧ elr_total response = Z.of_nat (length (rows_of topic (committed w)))
      ∧ Z.of_nat (length (elr_events response))
        = Z.min limit (Z.max 0 (elr_total response - offset))
      ∧ committed w' = committed w
  | (Raise e, w') =>
      json_codec w = false
      ∧ offset < Z.of_nat (length (rows_of topic (committed w)))
      ∧ e = HTTPException 500 (ValidationError [dict_type f_payload])
      ∧ committed w' = committed w
  end.
Proof.
  intros Hc Ht Hl Ho. unfold list_events.
  rewrite Query_in_range, Query_at_least by (done || lia).
  rewrite list_events_body_calm by (done || lia).
  pose proof (Permutation_length
                (merge_sort_Permutation newest_first (rows_of topic (committed w))))
    as Hlen.
  set (page := take _ _).
  assert (Z.of_nat (length page)
          = Z.min limit
              (Z.max 0 (Z.of_nat (length (rows_of topic (committed w))) - offset)))
    as Hpage.
  { subst page. rewrite length_take, length_drop, Hlen. lia. }
  destruct (json_codec w) eqn:Hj.
  - rewrite EventResponse_list_codec. cbn. rewrite length_fmap.
    repeat split; try done. by left.
  - destruct page as [|row rows] eqn:Hrows.
    + cbn. cbn in Hpage. split; [right; lia|]. split; [done|]. split; [lia | done].
    + rewrite EventResponse_list_no_codec. cbn [length] in Hpage.
      split; [done|]. split; [lia|]. by split.
Qed.

Lemma list_events_page_size_witness :
  calm stocked ∧ tx stocked = None
  ∧ match list_events None (Some 3) (Some 4) stocked with
    | (Ok response, w') =>
        elr_total response = 5
        ∧ length (elr_events response) = 1%nat
        ∧ committed w' = committed stocked
    | (Raise _, _) => False
    end
  ∧ calm deployed ∧ tx deployed = None
  ∧ match list_events None (Some 3) (Some 4) deployed with
    | (Ok response, w') =>
        elr_total response = 0
        ∧ length (elr_events response) = 0%nat
        ∧ committed w' = committed deployed
    | (Raise _, _) => False
    end.
Proof.
  assert (calm stocked) as Hc by (split; vm_compute; reflexivity).
  assert (tx stocked = None) as Ht by (vm_compute; reflexivity).
  assert (calm deployed) as Hc' by (split; reflexivity).
  assert (tx deployed = None) as Ht' by reflexivity.
  assert (1 ≤ 3 ≤ 1000) as Hl by lia.
  assert (0 ≤ 4 < 2 ^ 63) as Ho by lia.
  split; [exact Hc|]. split; [exact Ht|]. split; [|split; [exact Hc'|split; [exact Ht'|]]].
  - pose proof (list_events_page_size None 3 4 stocked Hc Ht Hl Ho) as H.
    assert (∃ response w',
              list_events None (Some 3) (Some 4) stocked = (Ok response, w'))
      as (response & w' & Hrun) by (vm_compute; by eexists _, _).
    rewrite Hrun in H |- *.
    destruct H as (_ & Htotal & Hpage & Hsame).
    assert (length (rows_of None (committed stocked)) = 5%nat) as Hfive
      by (vm_compute; reflexivity).
    rewrite Hfive in Htotal. rewrite Htotal in Hpage.
    split; [exact Htotal|]. split; [lia | exact Hsame].
  - pose proof (list_events_page_size None 3 4 deployed Hc' Ht' Hl Ho) as H.
    assert (∃ response w',
              list_events None (Some 3) (Some 4) deployed = (Ok response, w'))
      as (response & w' & Hrun) by (vm_compute; by eexists _, _).
    rewrite Hrun in H |- *.
    destruct H as (_ & Htotal & Hpage & Hsame).
    assert (length (rows_of None (committed deployed)) = 0%nat) as Hnone
      by (vm_compute; reflexivity).
    rewrite Hnone in Htotal. rewrite Htotal in Hpage.
    split; [exact Htotal|]. split; [lia | exact Hsame].
Defined.

(** ** The statistics *)

Lemma group_by_topic_lookup rows t :
  group_by_topic rows !! t
  = match length (filter (λ r, se_topic r = t) rows) with
    | O => None
    | S n => Some (S n)
    end.
Proof.
  induction rows as [|row rows IH]; [done|].
  cbn [group_by_topic foldr]. fold (group_by_topic rows).
  rewrite filter_cons. destruct (decide (se_topic row = t)) as [->|Hne].
  - rewrite lookup_insert_eq, IH. cbn [length].
    by destruct (length (filter (λ r, se_topic r = t) rows)).
  - by rewrite lookup_insert_ne.
Qed.

Lemma group_by_topic_total rows :
  sum_list (map_to_list (group_by_topic rows)).*2 = length rows.
Proof.
  induction rows as [|row rows IH]; [done|].
  cbn [group_by_topic foldr length]. fold (group_by_topic rows).
  destruct (group_by_topic rows !! se_topic row) as [n|] eqn:Hk; cbn [default].
  - rewrite <- insert_delete_eq.
    rewrite map_to_list_insert by apply lookup_delete_eq.
    rewrite <- IH, <- (map_to_list_delete _ _ _ Hk). cbn. lia.
  - rewrite map_to_list_insert by done. cbn. by rewrite IH.
Qed.

Lemma get_stats_calm now1 now2 w :
  calm w → tx w = None →
  get_stats now1 now2 w
  = (match stats (committed w) with
     | None =>
         Ok {| s_received := 0; s_unique_processed := 0;
               s_duplicate_dropped := 0; s_duplicate_rate := float_0;
               s_topics := []; s_topic_count := 0;
               s_started_at := now1; s_last_updated_at := now2 |}
     | Some row =>
         Ok {| s_received := st_received row;
               s_unique_processed := st_unique_processed row;
               s_duplicate_dropped := st_duplicate_dropped row;
               s_duplicate_rate :=
                 round_to (if 0 <? st_received row
                           then fmul (truediv (st_duplicate_dropped row)
                                        (st_received row)) 100
                           else float_0) 2;
               s_topics :=
                 (λ r : str * nat, {| ts_topic := r.1; event_count := Z.of_nat r.2 |})
                 <$> topic_breakdown (committed w);
               s_topic_count :=
                 Z.of_nat (length ((λ r : str * nat,
                                      {| ts_topic := r.1;
                                         event_count := Z.of_nat r.2 |})
                                   <$> topic_breakdown (committed w)));
               s_started_at := st_started_at row;
               s_last_updated_at := st_last_updated_at row |}
     end, w).
Proof.
  intros [Hp Hf] Ht. destruct w as [p jc c t j f r]; cbn in *; subst.
  unfold get_stats, get_connection, get_pool, fetch, faulty, current, consume_fault,
    mbind, M_bind, mret, M_ret.
  cbn -[topic_breakdown]. by destruct (stats c).
Qed.

Lemma sum_of_event_counts (l : list (str * nat)) :
  foldr (λ ts total, event_count ts + total) 0
    ((λ r : str * nat, {| ts_topic := r.1; event_count := Z.of_nat r.2 |}) <$> l)
  = Z.of_nat (sum_list l.*2).
Proof. induction l as [|[t n] l IH]; [done|]. cbn in *. rewrite IH. lia. Qed.

#[local] Instance by_count_desc_total : Total by_count_desc.
Proof. intros a b. unfold by_count_desc. lia. Qed.

#[local] Instance by_count_desc_trans : Transitive by_count_desc.
Proof. intros a b c. unfold by_count_desc. lia. Qed.

(** X16. The topic breakdown of the statistics is consistent with the
    events table. In a calm world, when the stats row exists, [get_stats]
    copies the three counters from it and lists each topic that has
    stored events exactly once, with the number of its events, in
    descending order of that number; the numbers add up to the number of
    stored events, and [topic_count] is the length of the list. When the
    stats row is missing it answers with zeros and with no topics at
    all, even if events are stored. In both cases nothing changes. *)
Theorem get_stats_topic_breakdown now1 now2 w :
  calm w → tx w = None →
  ∃ result,
    get_stats now1 now2 w = (Ok result, w)
    ∧ match stats (committed w) with
      | None =>
          s_received result = 0 ∧ s_unique_processed result = 0
          ∧ s_duplicate_dropped result = 0 ∧ s_topics result = []
          ∧ s_topic_count result = 0
      | Some row =>
          s_received result = st_received row
          ∧ s_unique_processed result = st_unique_processed row
          ∧ s_duplicate_dropped result = st_duplicate_dropped row
          ∧ StronglySorted (λ a b, event_count b ≤ event_count a) (s_topics result)
          ∧ NoDup (ts_topic <$> s_topics result)
          ∧ (∀ ts, ts ∈ s_topics result
                   ↔ 0 < event_count ts
                     ∧ event_count ts
                       = Z.of_nat (length (filter (λ r, se_topic r = ts_topic ts)
                                             (map_to_list (events (committed w))).*2)))
          ∧ foldr (λ ts total, event_count ts + total) 0 (s_topics result)
            = Z.of_nat (size (events (committed w)))
          ∧ s_topic_count result = Z.of_nat (length (s_topics result))
      end.
Proof.
  intros Hc Ht. rewrite get_stats_calm by done.
  destruct (stats (committed w)) as [row|]; eexists; (split; [reflexivity|]);
    cbn -[topic_breakdown]; [|by repeat split].
  set (rows := (map_to_list (events (committed w))).*2).
  assert (topic_breakdown (committed w) ≡ₚ map_to_list (group_by_topic rows)) as Hperm
    by apply merge_sort_Permutation.
  split; [done|]. split; [done|]. split; [done|]. split; [|split; [|split; [|split]]].
  - apply (StronglySorted_fmap _ by_count_desc).
    + intros a b Hab. unfold by_count_desc in Hab. cbn. lia.
    + apply (StronglySorted_merge_sort _).
  - rewrite <- list_fmap_compose.
    change (NoDup (topic_breakdown (committed w)).*1).
    rewrite Hperm. apply NoDup_fst_map_to_list.
  - intros ts. rewrite list_elem_of_fmap. split.
    + intros ([t n] & -> & Hin). rewrite Hperm in Hin.
      apply elem_of_map_to_list in Hin. rewrite group_by_topic_lookup in Hin.
      cbn. fold rows.
      destruct (length (filter (λ r, se_topic r = t) rows)); [done|].
      injection Hin as <-. lia.
    + intros [Hpos Hn]. exists (ts_topic ts, Z.to_nat (event_count ts)). split.
      * destruct ts as [t n]. cbn in *. f_equal. lia.
      * rewrite Hperm. apply elem_of_map_to_list. rewrite group_by_topic_lookup.
        fold rows in Hn.
        destruct (length (filter (λ r, se_topic r = ts_topic ts) rows)) eqn:Hlen;
          [lia|]. f_equal. lia.
  - rewrite sum_of_event_counts, Hperm, group_by_topic_total.
    subst rows. by rewrite length_fmap, length_map_to_list.
  - done.
Qed.

(** On the stocked service the five stored events are all of topic [t]:
    one line, with count 5. *)
Lemma get_stats_topic_breakdown_witness :
  calm stocked ∧ tx stocked = None
  ∧ ∃ result,
      get_stats 30 31 stocked = (Ok result, stocked)
      ∧ s_topics result
        = [{| ts_topic := str_of_string "t"; event_count := 5 |}]
      ∧ s_received result = 8.
Proof.
  assert (calm stocked) as Hc by (split; vm_compute; reflexivity).
  assert (tx stocked = None) as Ht by (vm_compute; reflexivity).
  split; [exact Hc|]. split; [exact Ht|].
  destruct (get_stats_topic_breakdown 30 31 stocked Hc Ht) as (result & Hrun & _).
  exists result. split; [exact Hrun|].
  rewrite get_stats_calm in Hrun by done.
  apply (f_equal fst) in Hrun. cbn [fst] in Hrun.
  assert (Ok result
          = Ok {| s_received := 8; s_unique_processed := 5;
                  s_duplicate_dropped := 3;
                  s_duplicate_rate := round_to (fmul (truediv 3 8) 100) 2;
                  s_topics := [{| ts_topic := str_of_string "t"; event_count := 5 |}];
                  s_topic_count := 1; s_started_at := 0;
                  s_last_updated_at := 10 |}) as Hv.
  { rewrite <- Hrun. vm_compute. reflexivity. }
  injection Hv as ->. by split.
Defined.

(** ** Health and single publishing *)

(** X17. The health check turns every failure of a dependency into an
    answer. [check_db_health], [check_redis_health] and [health_check]
    never raise out of a probe; the check answers 200 with status
    [healthy] exactly when both the store and the transport answer their
    probes, and 503 with status [unhealthy] otherwise, naming the
    dependency that is disconnected. It never changes the tables, the
    journal or the Redis client. *)
Theorem health_check_reports_probes now start_time w :
  ∃ response w',
    check_db_health w = (Ok (store_answers w), w')
    ∧ check_redis_health w' = (Ok (transport_answers w), w')
    ∧ health_check now start_time w
      = (Ok (if store_answers w && transport_answers w
             then healthy_200 response else unhealthy_503 response), w')
    ∧ h_status response
      = (if store_answers w && transport_answers w
         then "healthy"%string else "unhealthy"%string)
    ∧ h_database response
      = (if store_answers w then "connected"%string else "disconnected"%string)
    ∧ h_redis response
      = (if transport_answers w then "connected"%string else "disconnected"%string)
    ∧ committed w' = committed w
    ∧ journal w' = journal w
    ∧ redis_client w' = redis_client w.
Proof.
  destruct w as [p jc c t j f rc].
  unfold health_check, check_db_health, check_redis_health, store_answers,
    transport_answers, try_except, get_connection, get_pool, fetch, get_redis, ping,
    faulty, consume_fault, mbind, M_bind, mret, M_ret.
  destruct p, f as [|[] f], rc as [[[] n ch]|]; cbn;
    eexists _, _; repeat (split; [reflexivity|]); reflexivity.
Qed.

Lemma publish_events_batch_unreachable events w client :
  redis_client w = Some client → reachable client = false →
  publish_events_batch events w
  = match queue_commands events with
    | Ok [] => (Ok 0%nat, w)
    | Ok (_ :: _) => (Raise ConnectionError, w)
    | Raise e => (Raise e, w)
    end.
Proof.
  intros Hr Hup.
  unfold publish_events_batch, get_redis, result_of, pipe_execute, mbind, M_bind,
    mret, M_ret.
  rewrite Hr. destruct (queue_commands events) as [[|document documents]|e]; [done| |done].
  by rewrite Hup.
Qed.

(** X18. A single publish reports every failure, a pipelined publish
    raises it. [publish_event] never raises: it answers [True] after
    delivering the document of the event to the channel, and [False],
    with the channel untouched, when the client is missing or
    unreachable or the payload cannot be serialized. With the client
    missing [publish_events_batch] raises the error of [get_redis]; with
    the client unreachable it raises the error of the first event that
    cannot be serialized, or else the connection error, except that an
    empty list is answered with 0 without any connection. *)
Theorem publish_event_never_raises event events w :
  match redis_client w with
  | Some client =>
      (publish_event event w
       = if reachable client && dumpable (JObject (payload event)) then
           (Ok true,
            set_redis
              {| reachable := true; subscribers := subscribers client;
                 channel :=
                   channel client
                   ++ [{| doc_topic := topic event; doc_event_id := event_id event;
                          doc_timestamp := timestamp event;
                          doc_source := source event;
                          doc_payload := written (JObject (payload event)) |}] |} w)
         else (Ok false, w))
      ∧ (reachable client = false →
         publish_events_batch events w
         = if decide (events = []) then (Ok 0%nat, w)
           else if decide (Forall (λ event, dumpable (JObject (payload event)) = true)
                             events)
                then (Raise ConnectionError, w)
                else (Raise PydanticSerializationError, w))
  | None =>
      publish_event event w = (Ok false, w)
      ∧ publish_events_batch events w
        = (Raise (RuntimeError "Redis client not initialized. Call init_redis() first."),
           w)
  end.
Proof.
  destruct (redis_client w) as [client|] eqn:Hr.
  - split.
    + unfold publish_event, try_except, get_redis, result_of, client_publish,
        model_dump_json, mbind, M_bind, mret, M_ret.
      rewrite Hr.
      destruct (reachable client) eqn:Hup,
        (dumpable (JObject (payload event))) eqn:Hd; cbn; rewrite ?Hup; done.
    + intros Hup. rewrite (publish_events_batch_unreachable _ _ _ Hr Hup).
      destruct (decide (events = [])) as [->|Hne]; [done|].
      destruct (decide (Forall _ events)) as [Hall|Hall].
      * destruct (queue_commands_dumpable _ Hall) as (documents & -> & Hlen).
        apply Forall2_length in Hlen.
        destruct documents; [by destruct events | done].
      * by rewrite (queue_commands_not_dumpable _ Hall).
  - unfold publish_event, publish_events_batch, try_except, get_redis, mbind, M_bind,
      mret, M_ret.
    by rewrite Hr.
Qed.

(** What the serializer writes for floats that are not finite, and what
    it refuses. *)
Example model_dump_json_writes :
  model_dump_json
    {| topic := str_of_string "t"; event_id := str_of_string "e1"; timestamp := 0;
       source := str_of_string "s";
       payload := [(str_of_string "x", JFloat (S754_infinity false));
                   (str_of_string "y", JArray [JFloat S754_nan; JInt 1])] |}
  = Ok {| doc_topic := str_of_string "t"; doc_event_id := str_of_string "e1";
          doc_timestamp := 0; doc_source := str_of_string "s";
          doc_payload :=
            JObject [(str_of_string "x", JNull);
                     (str_of_string "y", JArray [JNull; JInt 1])] |}
  ∧ model_dump_json lone_surrogate_event = Raise PydanticSerializationError.
Proof. split; vm_compute; reflexivity. Qed.

(** ** Rows and their keys *)

Lemma well_keyed_insert now worker_id table event :
  well_keyed table →
  well_keyed (<[key event := new_row now event worker_id]> table).
Proof.
  intros Hw k row. rewrite lookup_insert.
  case_decide as Hk; [|apply Hw]. by intros [= <-].
Qed.

(** X19. Along every history of admissions and batches, whatever the
    store fails, every row of the events table stays stored under the key
    made of its own topic and event id. *)
Theorem rows_stay_under_their_key calls w :
  well_keyed (events (committed w)) →
  well_keyed (events (committed (history calls w))).
Proof.
  apply (history_ind (λ d, well_keyed (events d))).
  - intros now worker_id d event Hd. unfold admission_tables.
    destruct (events d !! key event); cbn; [done|]. by apply well_keyed_insert.
  - intros now worker_id d batch Hd. cbn.
    exact (batch_tables_ind (λ table _, well_keyed table) now worker_id
             (λ _ _ _ _ H _, H) (λ _ _ _ H _, well_keyed_insert _ _ _ _ H)
             batch (events d) [] Hd).
Qed.

Lemma rows_stay_under_their_key_witness :
  well_keyed (events (committed service))
  ∧ well_keyed (events (committed (history sample_history service))).
Proof.
  assert (well_keyed (events (committed service))) as H.
  { intros k row Hk. cbn in Hk. by rewrite lookup_empty in Hk. }
  split; [exact H|]. exact (rows_stay_under_their_key sample_history service H).
Defined.

(** X21. The asynchronous path never reaches the store. Whatever the
    request, the state of the transport and the state of the store,
    [publish] with [sync = false] sends no statement, opens no
    transaction and commits nothing. It either answers with
    [processed = 0] and [duplicates = 0], which takes a Redis client, the
    serialization of every event, and a reachable transport unless there
    is no event to send; or it raises [HTTPException] 500 and leaves the
    world, channel included, exactly as it was. *)
Theorem publish_async_never_reaches_store now request w :
  match publish now request false w with
  | (Ok response, w') =>
      processed response = 0 ∧ duplicates response = 0
      ∧ received response = Z.of_nat (length (submitted request))
      ∧ is_Some (redis_client w)
      ∧ Forall (λ event, dumpable (JObject (payload event)) = true) (submitted request)
      ∧ (transport_answers w = true ∨ submitted request = [])
      ∧ committed w' = committed w ∧ tx w' = tx w
      ∧ journal w' = journal w ∧ faults w' = faults w
  | (Raise e, w') =>
      (∃ cause, e = HTTPException 500 cause)
      ∧ (transport_answers w = false
         ∨ ¬ Forall (λ event, dumpable (JObject (payload event)) = true)
               (submitted request))
      ∧ w' = w
  end.
Proof.
  unfold publish, try_except, mbind, M_bind. rewrite events_of_submitted.
  unfold transport_answers.
  destruct (redis_client w) as [client|] eqn:Hr.
  2:{ unfold publish_events_batch, get_redis, mbind, M_bind. rewrite Hr. cbn. eauto. }
  destruct (decide (Forall (λ event, dumpable (JObject (payload event)) = true)
                      (submitted request))) as [Hall|Hall].
  - destruct (queue_commands_dumpable _ Hall) as (documents & Hq & Hlen).
    apply Forall2_length in Hlen.
    destruct (reachable client) eqn:Hup.
    + rewrite (publish_events_batch_reachable _ documents w client Hr Hup Hq).
      cbn. destruct documents; cbn; repeat split; eauto.
    + rewrite (publish_events_batch_unreachable _ _ _ Hr Hup), Hq.
      destruct documents as [|document documents]; cbn.
      * destruct (submitted request); [|done]. repeat split; eauto.
      * eauto.
  - unfold publish_events_batch, get_redis, result_of, mbind, M_bind.
    rewrite Hr, (queue_commands_not_dumpable _ Hall). cbn. eauto.
Qed.

(** ** The duplicate rate *)




(** Rates as Python computes them: 33.33 and 66.67 for one and two
    thirds; 0.12, not 0.13, for one in 800, whose percentage 0.125 is a
    tie; nothing received gives [0.0]. *)
Example duplicate_rates :
  duplicate_rate_of 3 1 = Some (S754_finite false 4690780486883082 (-47))
  ∧ duplicate_rate_of 3 2 = Some (S754_finite false 4691484174324859 (-46))
  ∧ duplicate_rate_of 800 1 = Some (S754_finite false 8646911284551352 (-56))
  ∧ duplicate_rate_of 0 0 = Some (S754_zero false).
Proof. repeat split; vm_compute; reflexivity. Qed.
